(** * Patch-to-script compiler of sfeos_helpers/database/utils.py

    A shallow embedding of [validate_refresh], [merge_to_operations],
    [check_commands], [remove_commands], [add_commands], [test_commands]
    and [operations_to_script], followed by the properties of the
    natural-language specification that concern them.

    The first part holds the definitions: the functions of utils.py, once
    as functions on values and once over a store of Python objects (for
    the properties about mutation), then the notions the theorems are stated
    with. The second part holds the theorems. *)

From Stdlib Require Import ZArith Ascii String List Numbers.DecimalString.
From stdpp Require Import gmap strings list fin_maps.

Open Scope string_scope.
Set Warnings "-register-all".

(** ** Values and rendering *)

(** Python values that travel through a patch: [None], scalars, arrays and
    mappings (a [dict] keeps its insertion order, so it is an association
    list). Floats are left out: no function here looks inside a number. *)
Inductive json : Type :=
| JNull
| JBool (b : bool)
| JNum (z : Z)
| JStr (s : string)
| JArr (l : list json)
| JObj (d : list (string * json)).

(** [str(i)] of a Python integer, as an f-string renders it. *)
Definition py_str_int (z : Z) : string := NilZero.string_of_int (Z.to_int z).

(** An f-string renders an absent ([None]) field as the text [None]. *)
Definition py_str_opt (o : option string) : string :=
  match o with Some s => s | None => "None" end.

Definition py_str_opt_int (o : option Z) : string :=
  match o with Some z => py_str_int z | None => "None" end.

(** Truth value of an optional string ([if path.nest:]): [None] and the
    empty string are false. *)
Definition truthy_str (o : option string) : bool :=
  match o with Some (String _ _) => true | _ => false end.

(** Truth value of an optional integer ([if path.index ...]): [None] and
    [0] are false. *)
Definition truthy_int (o : option Z) : bool :=
  match o with Some z => negb (Z.eqb z 0) | None => false end.

Definition is_not_None {A} (o : option A) : bool :=
  match o with Some _ => true | None => false end.

(** Lowering of ASCII text: the letters A-Z go to a-z, every other
    character of the text stays. *)
Definition lower_ascii (c : ascii) : ascii :=
  let n := nat_of_ascii c in
  if (65 <=? n)%nat && (n <=? 90)%nat then ascii_of_nat (n + 32) else c.

Fixpoint lower_ascii_text (s : string) : string :=
  match s with
  | EmptyString => EmptyString
  | String c rest => String (lower_ascii c) (lower_ascii_text rest)
  end.

(** A text all of whose characters are ASCII (below 128). *)
Fixpoint is_ascii_text (s : string) : bool :=
  match s with
  | EmptyString => true
  | String c rest => (nat_of_ascii c <? 128)%nat && is_ascii_text rest
  end.

(** [str.lower()], on texts held as their UTF-8 bytes. On ASCII text it
    is the lowering of A-Z. On a text with any other character it is the
    lowering of the Unicode tables of the interpreter, which are no part
    of this development: [unicode_lower] stands for it. *)
Definition lower (unicode_lower : string → string) (s : string) : string :=
  if is_ascii_text s then lower_ascii_text s else unicode_lower s.

(** ** Patch operations *)

Inductive Op : Type := OpAdd | OpRemove | OpReplace | OpMove | OpCopy | OpTest.

Definition Op_eqb (a b : Op) : bool :=
  match a, b with
  | OpAdd, OpAdd | OpRemove, OpRemove | OpReplace, OpReplace
  | OpMove, OpMove | OpCopy, OpCopy | OpTest, OpTest => true
  | _, _ => false
  end.

(** [op in [...]] on a Python list of operation names. *)
Definition Op_in (o : Op) (l : list Op) : bool := existsb (Op_eqb o) l.

Inductive AddReplaceTest : Type := ArtAdd | ArtReplace | ArtTest.
Inductive MoveCopy : Type := McMove | McCopy.

(** The three request classes a patch operation can be an instance of,
    over the type [V] of the values they carry ([value: Any]). *)
Inductive PatchOperation (V : Type) : Type :=
| PatchAddReplaceTest (op : AddReplaceTest) (path : string) (value : V)
| PatchRemove (path : string)
| PatchMoveCopy (op : MoveCopy) (path : string) (from_ : string).
Arguments PatchAddReplaceTest {V} op path value.
Arguments PatchRemove {V} path.
Arguments PatchMoveCopy {V} op path from_.

Definition operation_op {V} (o : PatchOperation V) : Op :=
  match o with
  | PatchAddReplaceTest ArtAdd _ _ => OpAdd
  | PatchAddReplaceTest ArtReplace _ _ => OpReplace
  | PatchAddReplaceTest ArtTest _ _ => OpTest
  | PatchRemove _ => OpRemove
  | PatchMoveCopy McMove _ _ => OpMove
  | PatchMoveCopy McCopy _ _ => OpCopy
  end.

Definition operation_path {V} (o : PatchOperation V) : string :=
  match o with
  | PatchAddReplaceTest _ p _ | PatchRemove p | PatchMoveCopy _ p _ => p
  end.

(** [operation.from_] where [hasattr(operation, "from_")], else [None]. *)
Definition operation_from_ {V} (o : PatchOperation V) : option string :=
  match o with PatchMoveCopy _ _ f => Some f | _ => None end.

(** [operation.value]; [None] stands for a missing attribute. *)
Definition operation_value {V} (o : PatchOperation V) : option V :=
  match o with PatchAddReplaceTest _ _ v => Some v | _ => None end.

(** [operation.path = p], the one assignment the module performs. *)
Definition set_operation_path {V} (p : string) (o : PatchOperation V) : PatchOperation V :=
  match o with
  | PatchAddReplaceTest k _ v => PatchAddReplaceTest k p v
  | PatchRemove _ => PatchRemove p
  | PatchMoveCopy k _ f => PatchMoveCopy k p f
  end.

(** ** Path descriptors and the command set *)

(** Modelled from the spec: the path descriptor [ElasticPath] of
    models/patch.py, which is not among the sources. The fields are the
    ones utils.py reads: the parent container [nest], the final segment as
    a [key] or as a numeric [index], the accessors [es_nest],
    [es_location] and [es_path] (parent container, element, whole path),
    the scratch variable [variable_name] and the parameter token
    [param_key]. *)
Record ElasticPath : Type := {
  path : string;
  nest : option string;
  key : option string;
  index : option Z;
  es_nest : string;
  es_location : string;
  es_path : string;
  variable_name : string;
  param_key : string
}.

(** Modelled from the spec: the command sequence [ESCommandSet] of
    models/patch.py, which is not among the sources: an insertion-ordered
    collection of statement strings with set semantics, where appending an
    already-present statement is a no-op. Iterating it yields the
    statements in insertion order. *)
Definition ESCommandSet : Type := list string.

Definition ESCommandSet_new : ESCommandSet := [].

Definition ESCommandSet_add (commands : ESCommandSet) (value : string) : ESCommandSet :=
  if decide (value ∈ commands) then commands else (commands ++ [value])%list.

(** ** Statement texts *)

Definition nest_guard (p : ElasticPath) : string :=
  "if (!ctx._source.containsKey('" +:+ py_str_opt (nest p) +:+ "'))"
  +:+ "{Debug.explain('" +:+ py_str_opt (nest p) +:+ " does not exist');}".

Definition key_guard (p : ElasticPath) : string :=
  "if (!ctx._source" +:+ es_nest p +:+ ".containsKey('" +:+ py_str_opt (key p) +:+ "'))"
  +:+ "{Debug.explain('" +:+ py_str_opt (key p) +:+ "  does not exist in "
  +:+ py_str_opt (nest p) +:+ "');}".

Definition source_index_guard (p : ElasticPath) : string :=
  "if ((ctx._source" +:+ es_location p +:+ " instanceof ArrayList"
  +:+ " && ctx._source" +:+ es_location p +:+ ".size() < " +:+ py_str_opt_int (index p) +:+ ")"
  +:+ " || (!(ctx._source" +:+ es_location p +:+ " instanceof ArrayList)"
  +:+ " && !ctx._source" +:+ es_location p +:+ ".containsKey('" +:+ py_str_opt_int (index p) +:+ "')))"
  +:+ "{Debug.explain('" +:+ path p +:+ " does not exist');}".

Definition remove_statement (p : ElasticPath) : string :=
  match index p with
  | Some i =>
      "def " +:+ variable_name p +:+ " = ctx._source" +:+ es_location p
      +:+ ".remove(" +:+ py_str_int i +:+ ");"
  | None =>
      "def " +:+ variable_name p +:+ " = ctx._source" +:+ es_nest p
      +:+ ".remove('" +:+ py_str_opt (key p) +:+ "');"
  end.

Definition add_statement (op : Op) (p : ElasticPath) (value : string) : string :=
  match index p with
  | Some i =>
      "if (ctx._source" +:+ es_location p +:+ " instanceof ArrayList)"
      +:+ "{ctx._source" +:+ es_location p +:+ "."
      +:+ (if Op_in op [OpAdd; OpMove] then "add" else "set")
      +:+ "(" +:+ py_str_int i +:+ ", " +:+ value +:+ ")}"
      +:+ "else{ctx._source." +:+ es_path p +:+ " = " +:+ value +:+ "}"
  | None => "ctx._source." +:+ es_path p +:+ " = " +:+ value +:+ ";"
  end.

Definition test_statement (p : ElasticPath) (value json_value : string) : string :=
  "if (ctx._source." +:+ es_path p +:+ " != " +:+ value +:+ ")"
  +:+ "{Debug.explain('Test failed `" +:+ path p +:+ "` | "
  +:+ json_value +:+ " != ' + ctx._source." +:+ es_path p +:+ ");}".

(** ** Guards and mutators *)

Definition check_commands (commands : ESCommandSet) (op : Op) (p : ElasticPath)
    (from_path : bool) : ESCommandSet :=
  let commands :=
    if truthy_str (nest p) then ESCommandSet_add commands (nest_guard p)
    else commands in
  let commands :=
    if truthy_int (index p) || Op_in op [OpRemove; OpReplace; OpTest] || from_path
    then ESCommandSet_add commands (key_guard p)
    else commands in
  let commands :=
    if from_path && is_not_None (index p)
    then ESCommandSet_add commands (source_index_guard p)
    else commands in
  commands.

Definition remove_commands (commands : ESCommandSet) (p : ElasticPath) : ESCommandSet :=
  ESCommandSet_add commands (remove_statement p).

(** Errors the interpreter raises on its own: a local name read before it
    is bound, a missing attribute, an object of the wrong class, and the
    recursion limit. *)
Inductive error : Type := UnboundLocalError | AttributeError | TypeError | RecursionError.

Inductive result (A : Type) : Type :=
| Ok (a : A)
| Raise (e : error).
Arguments Ok {A} a.
Arguments Raise {A} e.

#[global] Instance result_bind : MBind result :=
  λ A B k r, match r with Ok a => k a | Raise e => Raise e end.

Definition attr {A} (o : option A) : result A :=
  match o with Some a => Ok a | None => Raise AttributeError end.

Definition add_commands {V} (commands : ESCommandSet) (operation : PatchOperation V)
    (p : ElasticPath) (from_path : option ElasticPath) (params : gmap string V)
    : result (ESCommandSet * gmap string V) :=
  vp ← match from_path with
       | Some fp =>
           Ok (if Op_eqb (operation_op operation) OpMove
               then variable_name fp
               else "ctx._source." +:+ es_path fp,
               params)
       | None =>
           v ← attr (operation_value operation);
           Ok ("params." +:+ param_key p, <[param_key p := v]> params)
       end;
  Ok (ESCommandSet_add commands (add_statement (operation_op operation) p vp.1), vp.2).

(** ** The compiler *)

(** The script artifact: [{"source": ..., "lang": ..., "params": ...}]. *)
Record script (V : Type) : Type := {
  source : string;
  lang : string;
  params : gmap string V
}.
Arguments source {V} s.
Arguments lang {V} s.
Arguments params {V} s.

(** The locals of [operations_to_script] that live across iterations;
    [st_source] is [None] while the name [source] is still unbound. *)
Record locals (V : Type) : Type := {
  st_commands : ESCommandSet;
  st_params : gmap string V;
  st_source : option string
}.
Arguments st_commands {V} l.
Arguments st_params {V} l.
Arguments st_source {V} l.

Section Compiler.

Context {V : Type}.

(** The path resolver [ElasticPath(path=...)]: a function of the path
    string alone. *)
Variable resolve : string → ElasticPath.

(** [operation.json_value], the display form of the operation's value. *)
Variable json_dumps : V → string.

Definition test_commands (commands : ESCommandSet) (operation : PatchOperation V)
    (p : ElasticPath) (params : gmap string V)
    : result (ESCommandSet * gmap string V) :=
  let value := "params." +:+ param_key p in
  v ← attr (operation_value operation);
  let params := <[param_key p := v]> params in
  Ok (ESCommandSet_add commands (test_statement p value (json_dumps v)), params).

(** One iteration of the loop over the operations. *)
Definition loop_body (st : locals V) (operation : PatchOperation V) : result (locals V) :=
  let p := resolve (operation_path operation) in
  let from_path := resolve <$> operation_from_ operation in
  let op := operation_op operation in
  let commands := check_commands (st_commands st) op p false in
  let commands :=
    match from_path with
    | Some fp => check_commands commands op fp true
    | None => commands
    end in
  let commands :=
    if Op_in op [OpRemove; OpMove]
    then remove_commands commands (default p from_path)
    else commands in
  cp ← (if Op_in op [OpAdd; OpReplace; OpCopy; OpMove]
        then add_commands commands operation p from_path (st_params st)
        else Ok (commands, st_params st));
  cp ← (if Op_eqb op OpTest
        then test_commands cp.1 operation p cp.2
        else Ok cp);
  Ok {| st_commands := cp.1; st_params := cp.2;
        st_source := Some (String.concat "" cp.1) |}.

Fixpoint loop (st : locals V) (operations : list (PatchOperation V)) : result (locals V) :=
  match operations with
  | [] => Ok st
  | operation :: rest => st' ← loop_body st operation; loop st' rest
  end.

Definition locals_init : locals V :=
  {| st_commands := ESCommandSet_new; st_params := ∅; st_source := None |}.

(** [return {"source": source, ...}]: reading [source] raises while the
    name is unbound. *)
Definition script_of_locals (st : locals V) : result (script V) :=
  match st_source st with
  | None => Raise UnboundLocalError
  | Some src => Ok {| source := src; lang := "painless"; params := st_params st |}
  end.

Definition operations_to_script (operations : list (PatchOperation V)) : result (script V) :=
  st ← loop locals_init operations;
  script_of_locals st.

End Compiler.

(** ** The refresh parameter *)

(** [Union[str, bool]]. *)
Inductive refresh_value : Type :=
| RBool (b : bool)
| RStr (s : string).

Definition boolean_like : list string :=
  ["true"; "false"; "1"; "0"; "yes"; "no"; "y"; "n"].

Definition invalid_refresh_warning (value : string) : string :=
  "Invalid value for `refresh`: '" +:+ value
  +:+ "'. Expected 'true', 'false', or 'wait_for'. Defaulting to 'false'.".

Section Refresh.

(** [get_bool_env(name, default=...)] of core/utilities.py, which is not
    among the sources, read under the environment of the process. *)
Variable get_bool_env : string → refresh_value → bool.

(** [str.lower()] on texts that are not ASCII. *)
Variable unicode_lower : string → string.

(** The result, and the warnings handed to the logger. *)
Definition validate_refresh (value : refresh_value) : string * list string :=
  let via_env :=
    let is_true := get_bool_env "DATABASE_REFRESH" value in
    (if is_true then "true" else "false", []) in
  match value with
  | RBool _ => via_env
  | RStr s =>
      if existsb (String.eqb s) boolean_like then via_env
      else
        let value := lower unicode_lower s in
        if String.eqb value "wait_for" then ("wait_for", [])
        else ("false", [invalid_refresh_warning value])
  end.

End Refresh.

(** ** The operation normalizer *)

(** [merge_to_operations] on a mapping [data]. The inner loop runs over
    [data.copy().items()] with the list [operations] built so far; the
    recursion is on the value: a nested mapping is the [JObj] met in the
    loop. *)
Fixpoint merge_to_operations_value (value : json) : list (PatchOperation json) :=
  match value with
  | JObj data =>
      (fix items (data : list (string * json)) (operations : list (PatchOperation json)) :=
         match data with
         | [] => operations
         | (key, value) :: rest =>
             match value with
             | JNull => items rest (operations ++ [PatchRemove key])%list
             | JObj _ =>
                 let nested_operations := merge_to_operations_value value in
                 items rest
                   (operations ++
                    map (λ nested_operation,
                           set_operation_path
                             (key +:+ "." +:+ operation_path nested_operation)
                             nested_operation)
                        nested_operations)%list
             | _ => items rest (operations ++ [PatchAddReplaceTest ArtAdd key value])%list
             end
         end) data []
  | _ => []
  end.

Definition merge_to_operations (data : list (string * json)) : list (PatchOperation json) :=
  merge_to_operations_value (JObj data).

(** ** The object store *)

(** Python objects have an identity and can be assigned to. For the
    properties about mutation the functions are run over a store: an
    object's identity is the position at which it was allocated. *)
Definition loc : Type := nat.

(** A value held in a field, a list slot or a mapping entry: an immutable
    scalar, or a reference to an object of the store. *)
Inductive value : Type :=
| VNone
| VBool (b : bool)
| VInt (z : Z)
| VStr (s : string)
| VRef (l : loc).

Inductive object : Type :=
| ODict (entries : list (string * value))
| OList (elems : list value)
| OOperation (o : PatchOperation value).

Definition heap : Type := list object.

(** A computation over the store: the store is threaded through, and it
    survives an exception. *)
Definition M (A : Type) : Type := heap → result A * heap.

Definition ret {A} (a : A) : M A := λ h, (Ok a, h).

Definition raise {A} (e : error) : M A := λ h, (Raise e, h).

Definition lift {A} (r : result A) : M A := λ h, (r, h).

#[global] Instance M_bind : MBind M :=
  λ A B k m h,
    match m h with
    | (Ok a, h') => k a h'
    | (Raise e, h') => (Raise e, h')
    end.

Definition load (l : loc) : M object :=
  λ h, match h !! l with Some o => (Ok o, h) | None => (Raise TypeError, h) end.

Definition alloc (o : object) : M loc :=
  λ h, (Ok (length h), (h ++ [o])%list).

Definition store (l : loc) (o : object) : M unit :=
  λ h, (Ok tt, <[l := o]> h).

Definition load_operation (l : loc) : M (PatchOperation value) :=
  o ← load l;
  match o with
  | OOperation operation => ret operation
  | _ => raise AttributeError
  end.

(** [isinstance(value, dict)]. *)
Definition isinstance_dict (v : value) : M bool :=
  match v with
  | VRef l => o ← load l; ret (match o with ODict _ => true | _ => false end)
  | _ => ret false
  end.

(** The loop [for nested_operation in nested_operations]: each operation
    object is assigned its new path in place, then appended. *)
Fixpoint rename_nested (key : string) (nested_operations : list loc)
    (operations : list loc) : M (list loc) :=
  match nested_operations with
  | [] => ret operations
  | nested_operation :: rest =>
      o ← load_operation nested_operation;
      _ ← store nested_operation
            (OOperation (set_operation_path (key +:+ "." +:+ operation_path o) o));
      rename_nested key rest (operations ++ [nested_operation])%list
  end.

(** [merge_to_operations] over the store. [data] is the mapping object;
    the result lists the operation objects, which are new. [depth] is the
    recursion depth the interpreter still allows. The loop runs over
    [data.copy().items()], the entries the mapping has when the call
    starts; the shallow copy is a temporary that only the loop reads. The
    lists [operations] and [nested_operations] are locals that nothing
    else refers to before they are returned, so they are kept as values. *)
Fixpoint merge_to_operations_h (depth : nat) (data : loc) : M (list loc) :=
  match depth with
  | O => raise RecursionError
  | S depth =>
      o ← load data;
      match o with
      | ODict entries =>
          (fix items (entries : list (string * value)) (operations : list loc)
             : M (list loc) :=
             match entries with
             | [] => ret operations
             | (key, value) :: rest =>
                 match value with
                 | VNone =>
                     l ← alloc (OOperation (PatchRemove key));
                     items rest (operations ++ [l])%list
                 | _ =>
                     is_dict ← isinstance_dict value;
                     if is_dict : bool then
                       nested_operations ←
                         match value with
                         | VRef d => merge_to_operations_h depth d
                         | _ => raise TypeError
                         end;
                       operations ← rename_nested key nested_operations operations;
                       items rest operations
                     else
                       l ← alloc (OOperation (PatchAddReplaceTest ArtAdd key value));
                       items rest (operations ++ [l])%list
                 end
             end) entries []
      | _ => raise AttributeError
      end
  end.

Section CompilerOverStore.

Variable resolve : string → ElasticPath.

(** [json.dumps] of a value, which reads the objects it refers to. *)
Variable json_dumps : heap → value → string.

(** The loop of [operations_to_script] over the elements of the list
    object: each operation object is read from the store. *)
Fixpoint loop_h (st : locals value) (elems : list value) : M (locals value) :=
  match elems with
  | [] => ret st
  | VRef l :: rest =>
      operation ← load_operation l;
      st' ← (λ h, lift (loop_body resolve (json_dumps h) st operation) h);
      loop_h st' rest
  | _ :: _ => raise AttributeError
  end.

Definition operations_to_script_h (operations : loc) : M (script value) :=
  o ← load operations;
  match o with
  | OList elems =>
      st ← loop_h locals_init elems;
      lift (script_of_locals st)
  | _ => raise TypeError
  end.

End CompilerOverStore.

(** ** Notions the theorems are stated with *)

(** Adding a run of statements, one [add] call after the other. *)
Definition add_all (commands : ESCommandSet) (l : list string) : ESCommandSet :=
  fold_left ESCommandSet_add l commands.

(** The guards [check_commands] hands to the command set, in call order. *)
Definition check_guards (op : Op) (p : ElasticPath) (from_path : bool) : list string :=
  ((if truthy_str (nest p) then [nest_guard p] else [])
   ++ (if truthy_int (index p) || Op_in op [OpRemove; OpReplace; OpTest] || from_path
       then [key_guard p] else [])
   ++ (if from_path && is_not_None (index p) then [source_index_guard p] else []))%list.

(** A guard is one of the three existence assertions; a mutation is a
    remove or an add-or-replace statement. *)
Definition is_guard (s : string) : Prop :=
  ∃ p, s = nest_guard p ∨ s = key_guard p ∨ s = source_index_guard p.

Definition is_remove (s : string) : Prop := ∃ p, s = remove_statement p.

Definition is_add (s : string) : Prop := ∃ op p value, s = add_statement op p value.

Section Statements.

Context {V : Type}.
Variable resolve : string → ElasticPath.
Variable json_dumps : V → string.

(** The statements one operation hands to the command set, in the order
    of the calls. *)
Definition statements (o : PatchOperation V) : list string :=
  let p := resolve (operation_path o) in
  let op := operation_op o in
  (check_guards op p false
   ++ match operation_from_ o with
      | Some f => check_guards op (resolve f) true
      | None => []
      end
   ++ (if Op_in op [OpRemove; OpMove]
       then [remove_statement (default p (resolve <$> operation_from_ o))]
       else [])
   ++ match o with
      | PatchAddReplaceTest ArtTest _ v =>
          [test_statement p ("params." +:+ param_key p) (json_dumps v)]
      | PatchAddReplaceTest _ _ _ => [add_statement op p ("params." +:+ param_key p)]
      | PatchRemove _ => []
      | PatchMoveCopy McMove _ f => [add_statement op p (variable_name (resolve f))]
      | PatchMoveCopy McCopy _ f =>
          [add_statement op p ("ctx._source." +:+ es_path (resolve f))]
      end)%list.

(** The parameter one operation binds. *)
Definition bound (o : PatchOperation V) (ps : gmap string V) : gmap string V :=
  match o with
  | PatchAddReplaceTest _ p v => <[param_key (resolve p) := v]> ps
  | _ => ps
  end.


End Statements.

(** The loop of [merge_to_operations] from a list [operations] built so
    far. *)
Definition merge_items (data : list (string * json))
    (operations : list (PatchOperation json)) : list (PatchOperation json) :=
  (fix items (data : list (string * json)) (operations : list (PatchOperation json)) :=
     match data with
     | [] => operations
     | (key, value) :: rest =>
         match value with
         | JNull => items rest (operations ++ [PatchRemove key])%list
         | JObj _ =>
             items rest
               (operations ++
                map (λ nested_operation,
                       set_operation_path
                         (key +:+ "." +:+ operation_path nested_operation)
                         nested_operation)
                    (merge_to_operations_value value))%list
         | _ => items rest (operations ++ [PatchAddReplaceTest ArtAdd key value])%list
         end
     end) data operations.

(** The normalizer as the specification words it: key by key, a null
    value gives a remove, a nested mapping gives its own operations with
    the key and a dot put before each path, any other value gives an add
    with that value; the results follow the order of the keys. *)
Definition prefixed {V} (key : string) (o : PatchOperation V) : PatchOperation V :=
  set_operation_path (key +:+ "." +:+ operation_path o) o.

(** What one entry of the mapping contributes. *)
Definition item_operations (key : string) (v : json) : list (PatchOperation json) :=
  match v with
  | JNull => [PatchRemove key]
  | JObj data => map (prefixed key) (merge_to_operations data)
  | _ => [PatchAddReplaceTest ArtAdd key v]
  end.

Inductive normalizes : list (string * json) → list (PatchOperation json) → Prop :=
| normalizes_empty : normalizes [] []
| normalizes_null key rest ops :
    normalizes rest ops →
    normalizes ((key, JNull) :: rest) (PatchRemove key :: ops)
| normalizes_nested key data rest sub ops :
    normalizes data sub →
    normalizes rest ops →
    normalizes ((key, JObj data) :: rest) (map (prefixed key) sub ++ ops)
| normalizes_other key v rest ops :
    v ≠ JNull → (∀ data, v ≠ JObj data) →
    normalizes rest ops →
    normalizes ((key, v) :: rest) (PatchAddReplaceTest ArtAdd key v :: ops).

(** The leaves of a document, depth first, each with the keys that lead to
    it; its dotted path joins them with dots. *)
Fixpoint leaves_under (keys : list string) (v : json) : list (list string * json) :=
  match v with
  | JObj data => flat_map (λ kv, leaves_under (keys ++ [kv.1]) kv.2) data
  | _ => [(keys, v)]
  end.

Definition dotted (keys : list string) : string := String.concat "." keys.

Definition leaf_operation (leaf : list string * json) : PatchOperation json :=
  match leaf.2 with
  | JNull => PatchRemove (dotted leaf.1)
  | v => PatchAddReplaceTest ArtAdd (dotted leaf.1) v
  end.

(** An operation moved under the keys [keys]. *)
Definition relocate (keys : list string) (o : PatchOperation json) : PatchOperation json :=
  set_operation_path (dotted (keys ++ [operation_path o])) o.

(** The outcome when a text resolves through the default flag. *)
Definition via_default_flag (get_bool_env : string → refresh_value → bool)
    (value : refresh_value) : string * list string :=
  (if get_bool_env "DATABASE_REFRESH" value then "true" else "false", []).

(** A value of the store stands for a document: scalars for themselves, a
    reference to a mapping or list object for the document its entries
    stand for. *)
Fixpoint represents (h : heap) (j : json) (v : value) : Prop :=
  match j, v with
  | JNull, VNone => True
  | JBool b, VBool b' => b = b'
  | JNum z, VInt z' => z = z'
  | JStr s, VStr s' => s = s'
  | JArr js, VRef l =>
      ∃ elems, h !! l = Some (OList elems) ∧
        (fix all (js : list json) (vs : list value) : Prop :=
           match js, vs with
           | [], [] => True
           | j :: js, v :: vs => represents h j v ∧ all js vs
           | _, _ => False
           end) js elems
  | JObj d, VRef l =>
      ∃ entries, h !! l = Some (ODict entries) ∧
        (fix all (d : list (string * json)) (es : list (string * value)) : Prop :=
           match d, es with
           | [], [] => True
           | (k, j) :: d, (k', v) :: es => k = k' ∧ represents h j v ∧ all d es
           | _, _ => False
           end) d entries
  | _, _ => False
  end.

(** An operation held in the store stands for an operation on documents:
    same class, same fields, and a value that stands for the value. *)
Definition op_stands_for (h : heap) (o : PatchOperation json)
    (vo : PatchOperation value) : Prop :=
  match o, vo with
  | PatchAddReplaceTest k p j, PatchAddReplaceTest k' p' v =>
      k = k' ∧ p = p' ∧ represents h j v
  | PatchRemove p, PatchRemove p' => p = p'
  | PatchMoveCopy k p f, PatchMoveCopy k' p' f' => k = k' ∧ p = p' ∧ f = f'
  | _, _ => False
  end.

(** The entries of a mapping object stand for the entries of a mapping. *)
Definition entries_stand_for (h : heap) (d : list (string * json))
    (es : list (string * value)) : Prop :=
  Forall2 (λ kj kv, kj.1 = kv.1 ∧ represents h kj.2 kv.2) d es.

(** Nesting depth of a document. *)
Fixpoint json_depth (j : json) : nat :=
  match j with
  | JObj d => S (fold_right (λ kv n, Nat.max (json_depth kv.2) n) 0%nat d)
  | JArr l => S (fold_right (λ x n, Nat.max (json_depth x) n) 0%nat l)
  | _ => 0%nat
  end.

(** The loop of [merge_to_operations_h] from a list [operations] built so
    far, with [depth] for the nested calls. *)
Definition merge_entries_h (depth : nat) (entries : list (string * value))
    (operations : list loc) : M (list loc) :=
  (fix items (entries : list (string * value)) (operations : list loc) : M (list loc) :=
     match entries with
     | [] => ret operations
     | (key, value) :: rest =>
         match value with
         | VNone =>
             l ← alloc (OOperation (PatchRemove key));
             items rest (operations ++ [l])%list
         | _ =>
             is_dict ← isinstance_dict value;
             if is_dict : bool then
               nested_operations ←
                 match value with
                 | VRef d => merge_to_operations_h depth d
                 | _ => raise TypeError
                 end;
               operations ← rename_nested key nested_operations operations;
               items rest operations
             else
               l ← alloc (OOperation (PatchAddReplaceTest ArtAdd key value));
               items rest (operations ++ [l])%list
         end
     end) entries operations.

Definition is_operation (o : object) : Prop := ∃ operation, o = OOperation operation.

(** A computation that leaves the objects of [base] alone: run on a store
    that extends [base] by operation objects, it ends on such a store
    again, and what it returns satisfies [post]. *)
Definition grows {A} (base : heap) (m : M A) (post : A → Prop) : Prop :=
  ∀ new, Forall is_operation new →
    ∃ new', (m (base ++ new)%list).2 = (base ++ new')%list
            ∧ Forall is_operation new'
            ∧ ∀ a, (m (base ++ new)%list).1 = Ok a → post a.

(** The locations handed out after [base] was the whole store. *)
Definition allocated_after (base : heap) (ls : list loc) : Prop :=
  Forall (λ l, (length base ≤ l)%nat) ls.

(** The call on a mapping object that stands for the mapping [j], in a
    store that may hold more ([ext]) than the objects of the document
    ([h0]): it returns, its operations are the new objects of the store, in
    order, and they stand for the operations of [merge_to_operations]. *)
Definition returns_as (j : json) : Prop :=
  ∀ d, j = JObj d →
  ∀ (depth : nat) (h0 ext : heap) (l : loc),
    (json_depth j ≤ depth)%nat → represents h0 j (VRef l) →
    ∃ vops,
      merge_to_operations_h depth l (h0 ++ ext)%list =
        (Ok (seq (length (h0 ++ ext)%list) (length vops)),
         ((h0 ++ ext) ++ (OOperation <$> vops))%list)
      ∧ Forall2 (op_stands_for h0) (merge_to_operations d) vops.

(** Induction on documents, with the hypothesis for every element of an
    array and every value of a mapping. *)
Section JsonInduction.

Variable P : json → Prop.
Hypothesis Hnull : P JNull.
Hypothesis Hbool : ∀ b, P (JBool b).
Hypothesis Hnum : ∀ z, P (JNum z).
Hypothesis Hstr : ∀ s, P (JStr s).
Hypothesis Harr : ∀ l, Forall P l → P (JArr l).
Hypothesis Hobj : ∀ d, Forall (λ kv, P kv.2) d → P (JObj d).

Fixpoint json_nested_ind (j : json) : P j :=
  match j with
  | JNull => Hnull
  | JBool b => Hbool b
  | JNum z => Hnum z
  | JStr s => Hstr s
  | JArr l =>
      Harr l ((fix all (l : list json) : Forall P l :=
                 match l with
                 | [] => List.Forall_nil P
                 | x :: xs => @List.Forall_cons _ P x xs (json_nested_ind x) (all xs)
                 end) l)
  | JObj d =>
      Hobj d ((fix all (d : list (string * json)) : Forall (λ kv, P kv.2) d :=
                 match d with
                 | [] => List.Forall_nil _
                 | kv :: xs =>
                     @List.Forall_cons _ (λ kv, P kv.2) kv xs (json_nested_ind kv.2) (all xs)
                 end) d)
  end.

End JsonInduction.

(** ** Sample inputs *)

(** A descriptor table to run the compiler on concrete inputs: the keyed
    paths [a.b] and [a.c] under the parent [a], the indexed paths [a[0]]
    and [a[1]] (elements of the array [a]), and top-level keys otherwise. *)
Definition keyed (p : string) (n : option string) (k : string) (en : string)
    (token : string) : ElasticPath :=
  {| path := p; nest := n; key := Some k; index := None;
     es_nest := en; es_location := "." +:+ p; es_path := p;
     variable_name := token; param_key := token |}.

Definition sample_resolve (s : string) : ElasticPath :=
  if String.eqb s "/a/b" then keyed "a.b" (Some "a") "b" ".a" "ab"
  else if String.eqb s "/a/c" then keyed "a.c" (Some "a") "c" ".a" "ac"
  else if String.eqb s "/a/0" then
    {| path := "a[0]"; nest := Some ""; key := Some "a"; index := Some 0%Z;
       es_nest := ""; es_location := ".a"; es_path := "a[0]";
       variable_name := "a0"; param_key := "a0" |}
  else if String.eqb s "/a/1" then
    {| path := "a[1]"; nest := Some ""; key := Some "a"; index := Some 1%Z;
       es_nest := ""; es_location := ".a"; es_path := "a[1]";
       variable_name := "a1"; param_key := "a1" |}
  else
    let k := String.substring 1 (String.length s - 1) s in
    keyed k (Some "") k "" k.

Definition sample_dumps (j : json) : string :=
  match j with
  | JNum z => py_str_int z
  | JNull => "null"
  | JBool true => "true"
  | JBool false => "false"
  | _ => "..."
  end.

Definition sample_dumps_h (h : heap) (v : value) : string :=
  match v with
  | VInt z => py_str_int z
  | VNone => "null"
  | VBool true => "true"
  | VBool false => "false"
  | _ => "..."
  end.

(** The document [{"a": {"b": 1, "c": null}}] in the store: the inner
    mapping at 0, the outer one at 1. *)
Definition sample_heap : heap :=
  [ODict [("b", VInt 1); ("c", VNone)]; ODict [("a", VRef 0)]].

Definition sample_document : list (string * json) :=
  [("a", JObj [("b", JNum 1); ("c", JNull)])].

(** The operations built from the sample document, in a list object at 4
    of the store. *)
Definition sample_operations_heap : heap :=
  (sample_heap ++
   [OOperation (PatchAddReplaceTest ArtAdd "/a/b" (VInt 1));
    OOperation (PatchRemove "/a/c");
    OList [VRef 2; VRef 3]])%list.

(** ** Further notions *)

(** The three texts the refresh parameter is validated to. *)
Definition refresh_results : list string := ["true"; "false"; "wait_for"].

(** A test guard, by its text. *)
Definition is_test (s : string) : Prop :=
  ∃ p value shown, s = test_statement p value shown.

(** The operations the normalizer builds: a remove, or an add whose value
    is neither [None] nor a mapping. *)
Definition remove_or_add_leaf (o : PatchOperation json) : Prop :=
  match o with
  | PatchRemove _ => True
  | PatchAddReplaceTest ArtAdd _ v => v ≠ JNull ∧ ∀ d, v ≠ JObj d
  | _ => False
  end.

(** Operations whose target must exist: [op in ["remove", "replace",
    "test"]]. *)
Definition needs_target {V} (o : PatchOperation V) : bool :=
  Op_in (operation_op o) [OpRemove; OpReplace; OpTest].


(** The command set when the loop of [operations_to_script] ends: the
    statements whose concatenation is the source of the script. *)
Definition compiled_commands {V} (resolve : string → ElasticPath)
    (json_dumps : V → string) (operations : list (PatchOperation V)) : ESCommandSet :=
  match loop resolve json_dumps locals_init operations with
  | Ok st => st_commands st
  | Raise _ => []
  end.

(** [s.startswith(start)]. *)
Fixpoint starts_with (start s : string) : bool :=
  match start with
  | EmptyString => true
  | String a start' =>
      match s with
      | EmptyString => false
      | String b s' => Ascii.eqb a b && starts_with start' s'
      end
  end.

(** How often a text occurs in another, position by position. *)
Fixpoint occurrences (pattern s : string) : nat :=
  ((if starts_with pattern s then 1 else 0)
   + match s with
     | EmptyString => 0
     | String _ rest => occurrences pattern rest
     end)%nat.

(** A lowering for the examples: the capital E with acute accent (bytes
    195 137) goes to the small one (bytes 195 169), every other text
    stays. *)
Definition sample_unicode_lower (s : string) : string :=
  if String.eqb s (String (ascii_of_nat 195) (String (ascii_of_nat 137) EmptyString))
  then String (ascii_of_nat 195) (String (ascii_of_nat 169) EmptyString)
  else s.

(** * Properties *)

(** ** The command set *)

Lemma elem_of_ESCommandSet_add (commands : ESCommandSet) (value x : string) :
  x ∈ ESCommandSet_add commands value ↔ x ∈ commands ∨ x = value.
Proof.
  unfold ESCommandSet_add. case_decide as Hin.
  - split; [by left | intros [?| ->]; done].
  - rewrite elem_of_app, list_elem_of_singleton. done.
Qed.

Lemma ESCommandSet_add_present (commands : ESCommandSet) (value : string) :
  value ∈ commands → ESCommandSet_add commands value = commands.
Proof. intros Hin. unfold ESCommandSet_add. by rewrite decide_True. Qed.

Lemma ESCommandSet_add_fresh (commands : ESCommandSet) (value : string) :
  value ∉ commands → ESCommandSet_add commands value = (commands ++ [value])%list.
Proof. intros Hin. unfold ESCommandSet_add. by rewrite decide_False. Qed.

Lemma ESCommandSet_add_NoDup (commands : ESCommandSet) (value : string) :
  NoDup commands → NoDup (ESCommandSet_add commands value).
Proof.
  intros Hnd. unfold ESCommandSet_add. case_decide as Hin; [done|].
  apply NoDup_app. split_and!; [done| |apply NoDup_singleton].
  intros x Hx Hx'. apply list_elem_of_singleton in Hx' as ->. done.
Qed.

Lemma add_all_app (commands : ESCommandSet) (l1 l2 : list string) :
  add_all commands (l1 ++ l2)%list = add_all (add_all commands l1) l2.
Proof. apply fold_left_app. Qed.

Lemma elem_of_add_all (commands : ESCommandSet) (l : list string) (x : string) :
  x ∈ add_all commands l ↔ x ∈ commands ∨ x ∈ l.
Proof.
  revert commands. induction l as [|a l IH]; intros commands; simpl.
  - rewrite elem_of_nil. tauto.
  - rewrite IH, elem_of_ESCommandSet_add, elem_of_cons. tauto.
Qed.

Lemma add_all_NoDup (commands : ESCommandSet) (l : list string) :
  NoDup commands → NoDup (add_all commands l).
Proof.
  revert commands. induction l as [|a l IH]; intros commands Hnd; simpl; [done|].
  apply IH. by apply ESCommandSet_add_NoDup.
Qed.

Lemma add_all_present (commands : ESCommandSet) (l : list string) :
  (∀ x, x ∈ l → x ∈ commands) → add_all commands l = commands.
Proof.
  induction l as [|a l IH]; intros Hin; simpl; [done|].
  rewrite ESCommandSet_add_present by (apply Hin; left).
  apply IH. intros x Hx. apply Hin. by right.
Qed.

(** The statements already there stay in front, in their order; what is
    appended comes from the run. *)
Lemma add_all_extends (commands : ESCommandSet) (l : list string) :
  ∃ new, add_all commands l = (commands ++ new)%list ∧ ∀ x, x ∈ new → x ∈ l.
Proof.
  revert commands. induction l as [|a l IH]; intros commands; simpl.
  - exists []. by rewrite app_nil_r.
  - destruct (IH (ESCommandSet_add commands a)) as (new & -> & Hnew).
    unfold ESCommandSet_add. case_decide.
    + exists new. split; [done|]. intros x Hx. right. by apply Hnew.
    + exists (a :: new). rewrite <- app_assoc. split; [done|].
      intros x [->|Hx]%elem_of_cons; [left|right; by apply Hnew].
Qed.

Lemma add_all_snoc_fresh (commands : ESCommandSet) (l : list string) (a : string) :
  a ∉ commands → a ∉ l →
  add_all commands (l ++ [a])%list = (add_all commands l ++ [a])%list.
Proof.
  intros Hc Hl. rewrite add_all_app. simpl.
  apply ESCommandSet_add_fresh. rewrite elem_of_add_all. tauto.
Qed.

(** ** Guards as a run of statements *)

Lemma check_commands_add_all (commands : ESCommandSet) (op : Op) (p : ElasticPath)
    (from_path : bool) :
  check_commands commands op p from_path = add_all commands (check_guards op p from_path).
Proof.
  unfold check_commands, check_guards. rewrite !add_all_app.
  destruct (truthy_str (nest p)),
    (truthy_int (index p) || Op_in op [OpRemove; OpReplace; OpTest] || from_path),
    (from_path && is_not_None (index p)); reflexivity.
Qed.

Lemma check_guards_is_guard (op : Op) (p : ElasticPath) (from_path : bool) (s : string) :
  s ∈ check_guards op p from_path → is_guard s.
Proof.
  unfold check_guards. rewrite !elem_of_app. intros [H|[H|H]].
  - destruct (truthy_str (nest p)); [|by apply elem_of_nil in H].
    apply list_elem_of_singleton in H. exists p. auto.
  - destruct (_ || _ || _); [|by apply elem_of_nil in H].
    apply list_elem_of_singleton in H. exists p. auto.
  - destruct (_ && _); [|by apply elem_of_nil in H].
    apply list_elem_of_singleton in H. exists p. auto.
Qed.

Lemma check_commands_is_guard (op op' : Op) (p q : ElasticPath) (b b' : bool) (s : string) :
  s ∈ check_commands (check_commands [] op p b) op' q b' → is_guard s.
Proof.
  rewrite !check_commands_add_all, !elem_of_add_all, elem_of_nil.
  intros [[[]|H]|H]; eapply check_guards_is_guard; eassumption.
Qed.

(** The kinds of statement are told apart by their first characters. *)
Lemma is_guard_not_remove (s : string) : is_guard s → ¬ is_remove s.
Proof.
  intros [p Hp] [q ->]. unfold remove_statement in Hp.
  destruct (index q); destruct Hp as [H|[H|H]]; discriminate H.
Qed.

Lemma is_guard_not_add (s : string) : is_guard s → ¬ is_add s.
Proof.
  intros [p Hp] (op & q & v & ->). unfold add_statement in Hp.
  destruct (index q); destruct Hp as [H|[H|H]]; discriminate H.
Qed.

Lemma is_add_not_remove (s : string) : is_add s → ¬ is_remove s.
Proof.
  intros (op & q & v & ->) [p Hp]. unfold add_statement, remove_statement in Hp.
  destruct (index q), (index p); discriminate Hp.
Qed.

(** ** One operation as a run of statements *)

Section CompilerProperties.

Context {V : Type}.
Variable resolve : string → ElasticPath.
Variable json_dumps : V → string.

Lemma loop_body_run (st : locals V) (o : PatchOperation V) :
  loop_body resolve json_dumps st o =
  Ok {| st_commands := add_all (st_commands st) (statements resolve json_dumps o);
        st_params := bound resolve o (st_params st);
        st_source :=
          Some (String.concat "" (add_all (st_commands st) (statements resolve json_dumps o))) |}.
Proof.
  unfold loop_body, statements, add_commands, test_commands, remove_commands.
  rewrite !add_all_app.
  destruct o as [[] p v|p|[] p f]; cbn [operation_op operation_path operation_from_
    operation_value fmap option_fmap option_map default Op_in existsb Op_eqb orb
    attr mbind result_bind fst snd bound];
    rewrite ?check_commands_add_all; reflexivity.
Qed.

Lemma loop_run (ops : list (PatchOperation V)) (st : locals V) :
  loop resolve json_dumps st ops =
  Ok {| st_commands := add_all (st_commands st) (flat_map (statements resolve json_dumps) ops);
        st_params := fold_left (λ ps o, bound resolve o ps) ops (st_params st);
        st_source :=
          match ops with
          | [] => st_source st
          | _ => Some (String.concat ""
                   (add_all (st_commands st) (flat_map (statements resolve json_dumps) ops)))
          end |}.
Proof.
  revert st. induction ops as [|o rest IH]; intros st.
  - destruct st; reflexivity.
  - cbn [loop]. rewrite loop_body_run. cbn [mbind result_bind]. rewrite IH.
    cbn [st_commands st_params st_source flat_map fold_left].
    rewrite add_all_app. destruct rest; [|reflexivity].
    cbn [flat_map]. reflexivity.
Qed.

(** A non-empty list always compiles: no branch of the loop raises. *)
Lemma operations_to_script_cons (o : PatchOperation V) (rest : list (PatchOperation V)) :
  operations_to_script resolve json_dumps (o :: rest) =
  Ok {| source :=
          String.concat "" (add_all [] (flat_map (statements resolve json_dumps) (o :: rest)));
        lang := "painless";
        params := fold_left (λ ps o, bound resolve o ps) (o :: rest) ∅ |}.
Proof. unfold operations_to_script. rewrite loop_run. reflexivity. Qed.

(** C1. The specification has the compiler total, the empty operation
    list compiling to the empty source with no parameters. In the code the
    assignment [source = "".join(commands)] sits inside the loop body, so
    on the empty list the name [source] is never bound and the [return]
    raises [UnboundLocalError]. *)
Theorem operations_to_script_empty_raises :
  operations_to_script resolve json_dumps [] = Raise UnboundLocalError.
Proof. reflexivity. Qed.

End CompilerProperties.

(** Where the test of line 109 holds, the key guard is in the command
    set after the call. *)
Lemma key_guard_appended (commands : ESCommandSet) (op : Op) (p : ElasticPath)
    (from_path : bool) :
  truthy_int (index p) || Op_in op [OpRemove; OpReplace; OpTest] || from_path = true →
  key_guard p ∈ check_commands commands op p from_path.
Proof.
  intros Hc. rewrite check_commands_add_all, elem_of_add_all. right.
  unfold check_guards. rewrite Hc. apply elem_of_app. right.
  apply elem_of_app. left. by left.
Qed.

(** C2. The specification has the key guard appended for every array
    index, 0 included. The code tests the truth value of [path.index], and 0 is
    false: for an [add] at an index-0 target that is not a source side,
    [check_commands] appends the parent guard at most, never the key
    guard. *)
Theorem check_commands_index_zero_no_key_guard
    (commands : ESCommandSet) (p : ElasticPath) :
  index p = Some 0%Z →
  check_commands commands OpAdd p false =
    (if truthy_str (nest p) then ESCommandSet_add commands (nest_guard p) else commands)
  ∧ check_guards OpAdd p false = (if truthy_str (nest p) then [nest_guard p] else []).
Proof.
  intros Hi. unfold check_commands, check_guards. rewrite Hi. cbn.
  destruct (truthy_str (nest p)); done.
Qed.

Lemma check_commands_index_zero_no_key_guard_witness :
  index (sample_resolve "/a/0") = Some 0%Z ∧
  check_commands [] OpAdd (sample_resolve "/a/0") false = [] ∧
  operations_to_script sample_resolve sample_dumps
    [PatchAddReplaceTest ArtAdd "/a/0" (JNum 7)] =
  Ok {| source := "if (ctx._source.a instanceof ArrayList){ctx._source.a.add(0, params.a0)}else{ctx._source.a[0] = params.a0}";
        lang := "painless";
        params := {["a0" := JNum 7]} |}.
Proof.
  split; [reflexivity|]. split.
  - exact (proj1 (check_commands_index_zero_no_key_guard [] (sample_resolve "/a/0") eq_refl)).
  - reflexivity.
Defined.

(** ** Move, copy and test *)

Section Mutators.

Context {V : Type}.
Variable resolve : string → ElasticPath.
Variable json_dumps : V → string.

Lemma operations_to_script_nonempty (ops : list (PatchOperation V)) :
  ops ≠ [] →
  operations_to_script resolve json_dumps ops =
  Ok {| source := String.concat "" (add_all [] (flat_map (statements resolve json_dumps) ops));
        lang := "painless";
        params := fold_left (λ ps o, bound resolve o ps) ops ∅ |}.
Proof. destruct ops; [done|]. intros _. apply operations_to_script_cons. Qed.

Lemma both_guards (op : Op) (p q : ElasticPath) (s : string) :
  s ∈ (check_guards op p false ++ check_guards op q true)%list → is_guard s.
Proof. intros [H|H]%elem_of_app; eapply check_guards_is_guard; eassumption. Qed.


Lemma statements_copy (p f : string) :
  statements resolve json_dumps (PatchMoveCopy McCopy p f) =
  ((check_guards OpCopy (resolve p) false ++ check_guards OpCopy (resolve f) true)
   ++ [add_statement OpCopy (resolve p) ("ctx._source." +:+ es_path (resolve f))])%list.
Proof. unfold statements. cbn -[String.append]. by rewrite <- app_assoc. Qed.



Lemma statements_compiled (ops : list (PatchOperation V)) (o : PatchOperation V)
    (s : string) :
  o ∈ ops → s ∈ statements resolve json_dumps o →
  s ∈ add_all [] (flat_map (statements resolve json_dumps) ops).
Proof.
  intros Ho Hs. apply elem_of_add_all. right.
  apply list_elem_of_In, in_flat_map. exists o. by rewrite <- !list_elem_of_In.
Qed.

Lemma compiled_commands_run (ops : list (PatchOperation V)) :
  compiled_commands resolve json_dumps ops =
  add_all [] (flat_map (statements resolve json_dumps) ops).
Proof. unfold compiled_commands. by rewrite loop_run. Qed.

Lemma operations_to_script_commands (ops : list (PatchOperation V)) :
  ops ≠ [] →
  operations_to_script resolve json_dumps ops =
  Ok {| source := String.concat "" (compiled_commands resolve json_dumps ops);
        lang := "painless";
        params := fold_left (λ ps o, bound resolve o ps) ops ∅ |}.
Proof.
  intros Hne. rewrite compiled_commands_run. by apply operations_to_script_nonempty.
Qed.

Lemma compiled_commands_NoDup (ops : list (PatchOperation V)) :
  NoDup (compiled_commands resolve json_dumps ops).
Proof. rewrite compiled_commands_run. apply add_all_NoDup, NoDup_nil_2. Qed.


Lemma check_twice_add_all (commands : ESCommandSet) (op : Op) (p q : ElasticPath) :
  check_commands (check_commands commands op p false) op q true =
  add_all commands (check_guards op p false ++ check_guards op q true).
Proof. by rewrite !check_commands_add_all, add_all_app. Qed.



Lemma loop_body_copy (st : locals V) (p f : string) :
  loop_body resolve json_dumps st (PatchMoveCopy McCopy p f) =
  Ok {| st_commands :=
          ESCommandSet_add
            (check_commands (check_commands (st_commands st) OpCopy (resolve p) false)
               OpCopy (resolve f) true)
            (add_statement OpCopy (resolve p) ("ctx._source." +:+ es_path (resolve f)));
        st_params := st_params st;
        st_source :=
          Some (String.concat ""
            (ESCommandSet_add
               (check_commands (check_commands (st_commands st) OpCopy (resolve p) false)
                  OpCopy (resolve f) true)
               (add_statement OpCopy (resolve p)
                  ("ctx._source." +:+ es_path (resolve f))))) |}.
Proof. reflexivity. Qed.

Lemma is_guard_no_def (s : string) : is_guard s → starts_with "def " s = false.
Proof. intros [p [->|[->| ->]]]; reflexivity. Qed.

Lemma is_add_no_def (s : string) : is_add s → starts_with "def " s = false.
Proof.
  intros (op & p & v & ->). unfold add_statement. destruct (index p); reflexivity.
Qed.

Lemma remove_statement_def (p : ElasticPath) :
  starts_with "def " (remove_statement p) = true.
Proof. unfold remove_statement. destruct (index p); reflexivity. Qed.

(** C5. For a copy, no Remove statement reaches the command set: every
    statement of the result was there before or is not a Remove, and none
    of the new ones opens with [def]. The parameters are left as they
    were. The Add takes its value from the accessor of the source path in
    the document, [ctx._source.] followed by the source descriptor's
    [es_path], read where the statement runs: neither the scratch variable
    nor a parameter. Compiled on its own, the source text is the guards
    followed by that Add, and in any list the Add is among the compiled
    statements. *)
Theorem copy_reads_source_in_place (p f : string) :
  let tgt := resolve p in
  let src := resolve f in
  let guards := check_commands (check_commands [] OpCopy tgt false) OpCopy src true in
  let addition := add_statement OpCopy tgt ("ctx._source." +:+ es_path src) in
  operations_to_script resolve json_dumps [PatchMoveCopy McCopy p f] =
    Ok {| source := String.concat "" (guards ++ [addition]);
          lang := "painless"; params := ∅ |}
  ∧ Forall (λ s, is_guard s ∧ ¬ is_remove s) guards
  ∧ ¬ is_remove addition
  ∧ (∀ st : locals V, ∃ st',
      loop_body resolve json_dumps st (PatchMoveCopy McCopy p f) = Ok st'
      ∧ st_commands st' =
          add_all (st_commands st)
            (check_guards OpCopy tgt false ++ check_guards OpCopy src true ++ [addition])
      ∧ (∀ s, s ∈ st_commands st' → s ∈ st_commands st ∨ ¬ is_remove s)
      ∧ st_params st' = st_params st)
  ∧ addition =
    match index tgt with
    | Some i =>
        "if (ctx._source" +:+ es_location tgt +:+ " instanceof ArrayList){ctx._source"
        +:+ es_location tgt +:+ ".set(" +:+ py_str_int i +:+ ", ctx._source." +:+ es_path src
        +:+ ")}else{ctx._source." +:+ es_path tgt +:+ " = ctx._source." +:+ es_path src +:+ "}"
    | None => "ctx._source." +:+ es_path tgt +:+ " = ctx._source." +:+ es_path src +:+ ";"
    end
  ∧ (∀ q, starts_with "def " (remove_statement q) = true)
  ∧ (∀ st : locals V, ∃ st',
      loop_body resolve json_dumps st (PatchMoveCopy McCopy p f) = Ok st'
      ∧ st_commands st' =
          ESCommandSet_add
            (check_commands (check_commands (st_commands st) OpCopy tgt false) OpCopy src true)
            addition
      ∧ (∀ s, s ∈ st_commands st' → s ∈ st_commands st ∨ starts_with "def " s = false))
  ∧ (∀ before after : list (PatchOperation V),
      addition ∈ compiled_commands resolve json_dumps
                   (before ++ PatchMoveCopy McCopy p f :: after)).
Proof.
  intros tgt src guards addition.
  assert (Hadd : is_add addition) by (by exists OpCopy, tgt, ("ctx._source." +:+ es_path src)).
  split_and!.
  - rewrite operations_to_script_cons. do 2 f_equal.
    cbn [flat_map]. rewrite app_nil_r, statements_copy.
    fold tgt src addition. subst guards.
    rewrite !check_commands_add_all, <- add_all_app.
    rewrite add_all_snoc_fresh; [done|apply not_elem_of_nil|].
    intros Hin. by apply (is_guard_not_add addition (both_guards _ _ _ _ Hin)).
  - apply Forall_forall. intros s Hs.
    assert (is_guard s) by (by eapply check_commands_is_guard).
    split; [done|by apply is_guard_not_remove].
  - by apply is_add_not_remove.
  - intros st. eexists. rewrite loop_body_run. split; [reflexivity|].
    cbn [st_commands st_params bound]. rewrite statements_copy.
    split_and!; [by rewrite <- app_assoc| |done].
    intros s [Hs|Hs]%elem_of_add_all; [by left|right].
    apply elem_of_app in Hs as [Hs| ->%list_elem_of_singleton].
    + apply is_guard_not_remove. by eapply both_guards.
    + by apply is_add_not_remove.
  - subst addition. unfold add_statement. destruct (index tgt); [|done].
    cbn [Op_in existsb Op_eqb orb]. cbn. reflexivity.
  - apply remove_statement_def.
  - intros st. eexists. rewrite loop_body_copy. split; [reflexivity|].
    cbn [st_commands]. split; [done|].
    intros s [Hs| ->]%elem_of_ESCommandSet_add; [|right; by apply is_add_no_def].
    rewrite check_twice_add_all in Hs.
    apply elem_of_add_all in Hs as [Hs|Hs]; [by left|right].
    apply is_guard_no_def. by eapply both_guards.
  - intros before after. rewrite compiled_commands_run.
    eapply statements_compiled.
    + apply elem_of_app. right. left.
    + rewrite statements_copy. apply elem_of_app. right. by left.
Qed.


(** Whatever the resolver, a test followed by a replace of the same path
    leaves only the replacement's value in the parameters. *)
Lemma test_then_replace_params (p : string) (v w : V) :
  operations_to_script resolve json_dumps
    [PatchAddReplaceTest ArtTest p v; PatchAddReplaceTest ArtReplace p w] =
  Ok {| source :=
          String.concat ""
            (add_all [] (flat_map (statements resolve json_dumps)
               [PatchAddReplaceTest ArtTest p v; PatchAddReplaceTest ArtReplace p w]));
        lang := "painless";
        params := {[param_key (resolve p) := w]} |}.
Proof.
  rewrite operations_to_script_cons. do 2 f_equal.
  cbn [fold_left bound]. rewrite insert_insert_eq. apply insert_empty.
Qed.

End Mutators.

Example move_x_to_y :
  operations_to_script sample_resolve sample_dumps [PatchMoveCopy McMove "/y" "/x"] =
  Ok {| source :=
          "if (!ctx._source.containsKey('x')){Debug.explain('x  does not exist in ');}"
          +:+ "def x = ctx._source.remove('x');"
          +:+ "ctx._source.y = x;";
        lang := "painless"; params := ∅ |}.
Proof. reflexivity. Qed.

Example copy_x_to_y :
  operations_to_script sample_resolve sample_dumps [PatchMoveCopy McCopy "/y" "/x"] =
  Ok {| source :=
          "if (!ctx._source.containsKey('x')){Debug.explain('x  does not exist in ');}"
          +:+ "ctx._source.y = ctx._source.x;";
        lang := "painless"; params := ∅ |}.
Proof. reflexivity. Qed.


(** The script of the witness. *)
Example move_among_others :
  compiled_commands sample_resolve sample_dumps
    [PatchAddReplaceTest ArtAdd "/a/b" (JNum 1); PatchMoveCopy McMove "/y" "/x";
     PatchRemove "/a/c"] =
  ["if (!ctx._source.containsKey('a')){Debug.explain('a does not exist');}";
   "ctx._source.a.b = params.ab;";
   "if (!ctx._source.containsKey('x')){Debug.explain('x  does not exist in ');}";
   "def x = ctx._source.remove('x');";
   "ctx._source.y = x;";
   "if (!ctx._source.a.containsKey('c')){Debug.explain('c  does not exist in a');}";
   "def ac = ctx._source.a.remove('c');"].
Proof. reflexivity. Qed.



(** C6. The specification has the parameter map hold the value of every
    test under a key of its own. The key is the [param_key] of the target
    descriptor, the same for every operation on the path: a test of [/x]
    against 1 followed by a replace of [/x] with 2 compiles to a script
    whose parameters hold 2 under the one key [x]. The value 1 of the test
    is under no key, and the guard of the test, whose message still reads
    [1 != ...], compares with [params.x], which is 2. *)
Lemma test_value_overwritten :
  ∃ s,
    operations_to_script sample_resolve sample_dumps
      [PatchAddReplaceTest ArtTest "/x" (JNum 1);
       PatchAddReplaceTest ArtReplace "/x" (JNum 2)] = Ok s
    ∧ source s =
        "if (!ctx._source.containsKey('x')){Debug.explain('x  does not exist in ');}"
        +:+ "if (ctx._source.x != params.x){Debug.explain('Test failed `x` | 1 != ' + ctx._source.x);}"
        +:+ "ctx._source.x = params.x;"
    ∧ params s = {["x" := JNum 2]}
    ∧ ∀ k, params s !! k ≠ Some (JNum 1).
Proof.
  eexists. split; [apply test_then_replace_params|].
  split; [reflexivity|]. split; [reflexivity|].
  intros k. cbn [params sample_resolve String.eqb Ascii.eqb Bool.eqb keyed param_key
                 String.substring String.length Nat.sub].
  destruct (decide (k = "x")) as [->|Hk].
  - rewrite lookup_singleton_eq. discriminate.
  - rewrite lookup_singleton_ne by done. discriminate.
Qed.

(** ** Deduplication *)

Section Deduplication.

Context {V : Type}.
Variable resolve : string → ElasticPath.
Variable json_dumps : V → string.

Lemma compiled_NoDup (ops : list (PatchOperation V)) :
  NoDup (add_all [] (flat_map (statements resolve json_dumps) ops)).
Proof. apply add_all_NoDup, NoDup_nil_2. Qed.

Lemma exactly_once (l : list string) (s : string) :
  NoDup l → s ∈ l → ∃ before after,
    l = (before ++ s :: after)%list ∧ (s ∉ before) ∧ (s ∉ after).
Proof.
  intros Hnd (before & after & ->)%list_elem_of_split.
  exists before, after. split; [done|].
  apply NoDup_app in Hnd as (_ & Hdisj & Hnd).
  apply NoDup_cons in Hnd as [Hafter _].
  split; [|done]. intros Hin. apply (Hdisj _ Hin). by left.
Qed.

Lemma nest_guard_emitted (o : PatchOperation V) :
  truthy_str (nest (resolve (operation_path o))) = true →
  nest_guard (resolve (operation_path o)) ∈ statements resolve json_dumps o.
Proof.
  intros Hn. unfold statements, check_guards. rewrite Hn.
  apply elem_of_app. left. apply elem_of_app. left. by left.
Qed.

(** A repeated operation adds nothing to the command set. *)
Lemma duplicate_commands (l1 l2 l3 : list (PatchOperation V)) (o : PatchOperation V) :
  add_all [] (flat_map (statements resolve json_dumps) (l1 ++ o :: l2 ++ o :: l3)) =
  add_all [] (flat_map (statements resolve json_dumps) (l1 ++ o :: l2 ++ l3)).
Proof.
  rewrite !flat_map_app. cbn [flat_map]. rewrite !flat_map_app. cbn [flat_map].
  rewrite !add_all_app. f_equal.
  apply add_all_present. intros s Hs.
  rewrite !elem_of_add_all. tauto.
Qed.

Lemma nest_guard_checked (op : Op) (p : ElasticPath) (from_path : bool) :
  truthy_str (nest p) = true →
  nest_guard p ∈ check_commands [] op p from_path.
Proof.
  intros Hn. rewrite check_commands_add_all. apply elem_of_add_all. right.
  unfold check_guards. rewrite Hn. apply elem_of_app. left. by left.
Qed.

(** C8. Appending a statement that is already there changes nothing, and
    what was there keeps its place. Hence, when two operations of a list
    are on paths of the same parent [n], the guard of [n], which
    [check_commands] gives for either, stands at one place of the command
    sequence and at no other, and the source is the concatenation of that
    sequence. A list in which an operation occurs a second time has the
    command sequence, and so the source, of the list without that second
    occurrence. *)
Theorem guard_deduplication :
  (∀ (commands : ESCommandSet) (s : string),
     s ∈ commands → ESCommandSet_add commands s = commands)
  ∧ (∀ (commands : ESCommandSet) (s : string),
       ∃ new, ESCommandSet_add commands s = (commands ++ new)%list)
  ∧ (∀ (ops : list (PatchOperation V)) (o1 o2 : PatchOperation V) (n : string),
       let p1 := resolve (operation_path o1) in
       let p2 := resolve (operation_path o2) in
       let guard :=
         "if (!ctx._source.containsKey('" +:+ n +:+ "'))"
         +:+ "{Debug.explain('" +:+ n +:+ " does not exist');}" in
       o1 ∈ ops → o2 ∈ ops → n ≠ "" → nest p1 = Some n → nest p2 = Some n →
       guard ∈ check_commands [] (operation_op o1) p1 false
       ∧ guard ∈ check_commands [] (operation_op o2) p2 false
       ∧ ∃ before after ps,
           operations_to_script resolve json_dumps ops =
             Ok {| source := String.concat "" (compiled_commands resolve json_dumps ops);
                   lang := "painless"; params := ps |}
           ∧ compiled_commands resolve json_dumps ops = (before ++ guard :: after)%list
           ∧ (guard ∉ before) ∧ (guard ∉ after))
  ∧ (∀ (l1 l2 l3 : list (PatchOperation V)) (o : PatchOperation V),
       compiled_commands resolve json_dumps (l1 ++ o :: l2 ++ o :: l3) =
       compiled_commands resolve json_dumps (l1 ++ o :: l2 ++ l3)
       ∧ ∃ s s',
           operations_to_script resolve json_dumps (l1 ++ o :: l2 ++ o :: l3) = Ok s
           ∧ operations_to_script resolve json_dumps (l1 ++ o :: l2 ++ l3) = Ok s'
           ∧ source s = source s'
           ∧ source s =
               String.concat "" (compiled_commands resolve json_dumps (l1 ++ o :: l2 ++ l3))).
Proof.
  split_and!.
  - apply ESCommandSet_add_present.
  - intros commands s. destruct (add_all_extends commands [s]) as (new & Hnew & _).
    by exists new.
  - intros ops o1 o2 n p1 p2 guard Hin1 Hin2 Hne Hn1 Hn2.
    assert (Ht : truthy_str (Some n) = true) by (by destruct n).
    assert (Hg1 : nest_guard p1 = guard) by (unfold nest_guard; by rewrite Hn1).
    assert (Hg2 : nest_guard p2 = guard) by (unfold nest_guard; by rewrite Hn2).
    split_and!.
    + rewrite <- Hg1. apply nest_guard_checked. by rewrite Hn1.
    + rewrite <- Hg2. apply nest_guard_checked. by rewrite Hn2.
    + destruct (exactly_once _ guard (compiled_commands_NoDup resolve json_dumps ops))
        as (before & after & Hsplit & Hb & Ha).
      { rewrite compiled_commands_run. eapply statements_compiled; [exact Hin1|].
        rewrite <- Hg1. apply nest_guard_emitted. fold p1. by rewrite Hn1. }
      exists before, after. eexists. split_and!; [|done..].
      apply operations_to_script_commands. intros ->. by apply elem_of_nil in Hin1.
  - intros l1 l2 l3 o.
    assert (Heq : compiled_commands resolve json_dumps (l1 ++ o :: l2 ++ o :: l3) =
                  compiled_commands resolve json_dumps (l1 ++ o :: l2 ++ l3))
      by (rewrite !compiled_commands_run; apply duplicate_commands).
    split; [exact Heq|]. do 2 eexists. split_and!.
    + apply operations_to_script_commands. by destruct l1.
    + apply operations_to_script_commands. by destruct l1.
    + cbn [source]. by rewrite Heq.
    + cbn [source]. by rewrite Heq.
Qed.

End Deduplication.

Lemma guard_deduplication_witness :
  ∃ before after ps,
    operations_to_script sample_resolve sample_dumps
      [PatchAddReplaceTest ArtAdd "/a/b" (JNum 1); PatchRemove "/a/c"] =
      Ok {| source :=
              String.concat ""
                (compiled_commands sample_resolve sample_dumps
                   [PatchAddReplaceTest ArtAdd "/a/b" (JNum 1); PatchRemove "/a/c"]);
            lang := "painless"; params := ps |}
    ∧ compiled_commands sample_resolve sample_dumps
        [PatchAddReplaceTest ArtAdd "/a/b" (JNum 1); PatchRemove "/a/c"] =
      (before ++ "if (!ctx._source.containsKey('a')){Debug.explain('a does not exist');}"
       :: after)%list
    ∧ ("if (!ctx._source.containsKey('a')){Debug.explain('a does not exist');}" ∉ before)
    ∧ ("if (!ctx._source.containsKey('a')){Debug.explain('a does not exist');}" ∉ after).
Proof.
  refine (proj2 (proj2 (proj1 (proj2 (proj2 (guard_deduplication sample_resolve sample_dumps)))
           [PatchAddReplaceTest ArtAdd "/a/b" (JNum 1); PatchRemove "/a/c"]
           (PatchAddReplaceTest ArtAdd "/a/b" (JNum 1)) (PatchRemove "/a/c") "a"
           _ _ _ eq_refl eq_refl))).
  - left.
  - right. left.
  - discriminate.
Defined.

(** These two operations, compiled: the guard of the parent [a] opens the
    script and is not repeated before the second operation; its text
    occurs at one position of the source. *)
Example shared_parent_source :
  compiled_commands sample_resolve sample_dumps
    [PatchAddReplaceTest ArtAdd "/a/b" (JNum 1); PatchRemove "/a/c"] =
  ["if (!ctx._source.containsKey('a')){Debug.explain('a does not exist');}";
   "ctx._source.a.b = params.ab;";
   "if (!ctx._source.a.containsKey('c')){Debug.explain('c  does not exist in a');}";
   "def ac = ctx._source.a.remove('c');"]
  ∧ operations_to_script sample_resolve sample_dumps
      [PatchAddReplaceTest ArtAdd "/a/b" (JNum 1); PatchRemove "/a/c"] =
    Ok {| source :=
            "if (!ctx._source.containsKey('a')){Debug.explain('a does not exist');}"
            +:+ "ctx._source.a.b = params.ab;"
            +:+ "if (!ctx._source.a.containsKey('c')){Debug.explain('c  does not exist in a');}"
            +:+ "def ac = ctx._source.a.remove('c');";
          lang := "painless";
          params := {["ab" := JNum 1]} |}
  ∧ occurrences "if (!ctx._source.containsKey('a')){Debug.explain('a does not exist');}"
      ("if (!ctx._source.containsKey('a')){Debug.explain('a does not exist');}"
       +:+ "ctx._source.a.b = params.ab;"
       +:+ "if (!ctx._source.a.containsKey('c')){Debug.explain('c  does not exist in a');}"
       +:+ "def ac = ctx._source.a.remove('c');") = 1%nat.
Proof. split_and!; reflexivity. Qed.

(** The occurrence that may go is the later one: without the earlier one
    the statements of the operations in between come first, and the source
    is another text. *)
Example earlier_occurrence_matters :
  compiled_commands sample_resolve sample_dumps
    [PatchRemove "/x"; PatchRemove "/y"; PatchRemove "/x"] =
  compiled_commands sample_resolve sample_dumps [PatchRemove "/x"; PatchRemove "/y"]
  ∧ compiled_commands sample_resolve sample_dumps
      [PatchRemove "/x"; PatchRemove "/y"; PatchRemove "/x"] ≠
    compiled_commands sample_resolve sample_dumps [PatchRemove "/y"; PatchRemove "/x"].
Proof. split; [reflexivity|discriminate]. Qed.

(** ** The refresh parameter *)

Section RefreshProperties.

Variable get_bool_env : string → refresh_value → bool.
Variable unicode_lower : string → string.

(** A boolean, or one of the eight lower-case texts, resolves through the
    default flag. *)
Lemma validate_refresh_boolean (b : bool) :
  validate_refresh get_bool_env unicode_lower (RBool b) = via_default_flag get_bool_env (RBool b).
Proof. reflexivity. Qed.

Lemma validate_refresh_boolean_like (s : string) :
  s ∈ boolean_like →
  validate_refresh get_bool_env unicode_lower (RStr s) = via_default_flag get_bool_env (RStr s).
Proof.
  intros Hs. unfold boolean_like in Hs.
  repeat (apply elem_of_cons in Hs as [->|Hs]; [reflexivity|]).
  by apply elem_of_nil in Hs.
Qed.

Lemma boolean_like_lower (s : string) :
  s ∈ boolean_like → lower unicode_lower s = s.
Proof.
  intros Hs. unfold boolean_like in Hs.
  repeat (apply elem_of_cons in Hs as [->|Hs]; [reflexivity|]).
  by apply elem_of_nil in Hs.
Qed.

Lemma existsb_boolean_like (s : string) :
  existsb (String.eqb s) boolean_like = true ↔ s ∈ boolean_like.
Proof.
  rewrite existsb_exists. split.
  - intros (x & Hx & ->%String.eqb_eq). by apply list_elem_of_In.
  - intros Hs. exists s. split; [by apply list_elem_of_In|apply String.eqb_refl].
Qed.

(** ["wait_for"] in any letter case passes through. *)
Lemma validate_refresh_wait_for (s : string) :
  lower unicode_lower s = "wait_for" → validate_refresh get_bool_env unicode_lower (RStr s) = ("wait_for", []).
Proof.
  intros Hl. unfold validate_refresh.
  destruct (existsb (String.eqb s) boolean_like) eqn:Hb.
  - apply existsb_boolean_like in Hb. rewrite (boolean_like_lower s Hb) in Hl.
    subst s. unfold boolean_like in Hb.
    repeat (apply elem_of_cons in Hb as [Hb|Hb]; [discriminate Hb|]).
    by apply elem_of_nil in Hb.
  - by rewrite Hl.
Qed.

(** Any other text gives ["false"] and one warning. *)
Lemma validate_refresh_other (s : string) :
  s ∉ boolean_like → lower unicode_lower s ≠ "wait_for" →
  validate_refresh get_bool_env unicode_lower (RStr s) = ("false", [invalid_refresh_warning (lower unicode_lower s)]).
Proof.
  intros Hb Hl. unfold validate_refresh.
  destruct (existsb (String.eqb s) boolean_like) eqn:Hb'.
  - by apply existsb_boolean_like in Hb'.
  - by apply String.eqb_neq in Hl as ->.
Qed.

(** C3. The specification has the boolean-like texts resolve through the
    default flag in any letter case. The code looks the text up in the set of
    lower-case texts before it lowers it, so an upper-case [TRUE] is not
    found there: whatever the flag says, it falls through to the warning
    (which then reads: invalid value 'true', expected 'true', ...) and the
    result is ["false"]. *)
Theorem validate_refresh_upper_case_true :
  validate_refresh get_bool_env unicode_lower (RStr "TRUE") =
    ("false",
     ["Invalid value for `refresh`: 'true'. Expected 'true', 'false', or 'wait_for'. Defaulting to 'false'."])
  ∧ validate_refresh get_bool_env unicode_lower (RStr "true") = via_default_flag get_bool_env (RStr "true")
  ∧ validate_refresh get_bool_env unicode_lower (RStr "WAIT_FOR") = ("wait_for", []).
Proof. split_and!; reflexivity. Qed.

End RefreshProperties.

(** ** The operation normalizer *)

Lemma merge_to_operations_items (data : list (string * json)) :
  merge_to_operations data = merge_items data [].
Proof. reflexivity. Qed.

Lemma merge_items_cons (key : string) (v : json) (rest : list (string * json))
    (operations : list (PatchOperation json)) :
  merge_items ((key, v) :: rest) operations =
  merge_items rest (operations ++ item_operations key v).
Proof. destruct v; reflexivity. Qed.

(** The loop only ever appends to the list built so far. *)
Lemma merge_items_acc (data : list (string * json)) (operations : list (PatchOperation json)) :
  merge_items data operations = (operations ++ merge_items data [])%list.
Proof.
  revert operations. induction data as [|[key v] rest IH]; intros operations.
  - cbn. by rewrite app_nil_r.
  - rewrite !merge_items_cons, IH, (IH ([] ++ _)%list). cbn [app].
    by rewrite app_assoc.
Qed.

Lemma merge_to_operations_cons (key : string) (v : json) (rest : list (string * json)) :
  merge_to_operations ((key, v) :: rest) =
  (item_operations key v ++ merge_to_operations rest)%list.
Proof.
  rewrite !merge_to_operations_items, merge_items_cons, merge_items_acc. done.
Qed.

Lemma normalizes_merge (data : list (string * json)) :
  normalizes data (merge_to_operations data).
Proof.
  change (match JObj data with
          | JObj d => normalizes d (merge_to_operations d)
          | _ => True
          end).
  generalize (JObj data) as j. clear data.
  induction j as [| | | | |d IH] using json_nested_ind; try exact I.
  induction d as [|[key v] rest IHrest].
  - constructor.
  - apply Forall_cons in IH as [IHv IH]. specialize (IHrest IH).
    rewrite merge_to_operations_cons. cbn [snd] in IHv.
    destruct v; cbn [item_operations app];
      try (apply normalizes_other; [discriminate|discriminate|exact IHrest]).
    + by apply normalizes_null.
    + by apply normalizes_nested.
Qed.

Lemma normalizes_functional (data : list (string * json)) (ops : list (PatchOperation json)) :
  normalizes data ops → ops = merge_to_operations data.
Proof.
  induction 1 as [|key rest ops _ IH|key data rest sub ops _ IHsub _ IH
                  |key v rest ops Hnull Hobj _ IH];
    rewrite ?merge_to_operations_cons; subst; cbn [item_operations app]; try done.
  destruct v; try done. by destruct (Hobj d).
Qed.

(** A path built by putting keys in front one level at a time is the
    dotted path of the leaf. *)
Lemma dotted_snoc (keys : list string) (key p : string) :
  dotted (keys ++ [key +:+ "." +:+ p]) = dotted (keys ++ [key; p]).
Proof.
  unfold dotted. induction keys as [|x keys IH]; [reflexivity|].
  cbn [app String.concat]. rewrite IH. by destruct keys.
Qed.

Lemma relocate_prefixed (keys : list string) (key : string) (o : PatchOperation json) :
  relocate keys (prefixed key o) = relocate (keys ++ [key]) o.
Proof.
  unfold relocate, prefixed.
  destruct o; cbn [set_operation_path operation_path];
    by rewrite dotted_snoc, <- app_assoc.
Qed.

Lemma relocate_nil (o : PatchOperation json) : relocate [] o = o.
Proof. by destruct o. Qed.

Lemma leaves_merge (j : json) (keys : list string) :
  map leaf_operation (leaves_under keys j) =
  match j with
  | JObj data => map (relocate keys) (merge_to_operations data)
  | _ => item_operations (dotted keys) j
  end.
Proof.
  revert keys. induction j as [| | | | |d IH] using json_nested_ind; intros keys;
    try reflexivity.
  induction d as [|[key v] rest IHrest]; [reflexivity|].
  apply Forall_cons in IH as [IHv IH]. specialize (IHrest IH).
  cbn [leaves_under flat_map fst snd] in *.
  rewrite map_app, IHrest, merge_to_operations_cons, map_app. f_equal.
  rewrite IHv. destruct v; try reflexivity.
  cbn [item_operations]. rewrite map_map.
  apply map_ext. intros o. by rewrite relocate_prefixed.
Qed.

(** C7. [merge_to_operations] returns, for every mapping, the list the
    specification describes and no other: key by key in iteration order, a
    remove for a null value, the operations of a nested mapping with the
    key and a dot before each path, an add carrying the value otherwise.
    The list is flat and depth first: it is the list of the leaves of the
    document, each turned into a remove (null) or an add (any other value)
    at its dotted path. The empty mapping gives the empty list. The
    function is total: it raises nothing. *)
Theorem merge_to_operations_normalizes (data : list (string * json)) :
  normalizes data (merge_to_operations data)
  ∧ (∀ ops, normalizes data ops → ops = merge_to_operations data)
  ∧ merge_to_operations data = map leaf_operation (leaves_under [] (JObj data))
  ∧ merge_to_operations [] = [].
Proof.
  split_and!.
  - apply normalizes_merge.
  - apply normalizes_functional.
  - rewrite (leaves_merge (JObj data) []).
    rewrite <- (map_id (merge_to_operations data)) at 1.
    apply map_ext. intros o. by rewrite relocate_nil.
  - reflexivity.
Qed.

Example merge_to_operations_sample :
  merge_to_operations sample_document =
  [PatchAddReplaceTest ArtAdd "a.b" (JNum 1); PatchRemove "a.c"].
Proof. reflexivity. Qed.

(** ** The store: what the functions leave alone *)

Lemma grows_ret {A} (base : heap) (a : A) (post : A → Prop) :
  post a → grows base (ret a) post.
Proof.
  intros Ha new Hnew. exists new. split_and!; [done..|].
  intros a' [= <-]. done.
Qed.

Lemma grows_raise {A} (base : heap) (e : error) (post : A → Prop) :
  grows base (raise e) post.
Proof. intros new Hnew. exists new. split_and!; done. Qed.

Lemma grows_bind {A B} (base : heap) (m : M A) (k : A → M B)
    (mid : A → Prop) (post : B → Prop) :
  grows base m mid → (∀ a, mid a → grows base (k a) post) →
  grows base (m ≫= k) post.
Proof.
  intros Hm Hk new Hnew. unfold mbind, M_bind.
  destruct (Hm new Hnew) as (new1 & Hh & Hnew1 & Hpost).
  destruct (m (base ++ new)%list) as [[a|e] h1]; cbn [fst snd] in *; subst h1.
  - apply (Hk a (Hpost a eq_refl) new1 Hnew1).
  - exists new1. split_and!; done.
Qed.

Lemma grows_load (base : heap) (l : loc) : grows base (load l) (λ _, True).
Proof.
  intros new Hnew. exists new. unfold load.
  destruct (_ !! l); cbn [fst snd]; split_and!; done.
Qed.

Lemma grows_load_operation (base : heap) (l : loc) :
  grows base (load_operation l) (λ _, True).
Proof.
  unfold load_operation. eapply grows_bind; [apply grows_load|].
  intros [| |o] _; [apply grows_raise..|by apply grows_ret].
Qed.

Lemma grows_isinstance_dict (base : heap) (v : value) :
  grows base (isinstance_dict v) (λ b, b = true → ∃ d, v = VRef d).
Proof.
  destruct v; try (apply grows_ret; discriminate).
  cbn [isinstance_dict]. eapply grows_bind; [apply grows_load|].
  intros o _. apply grows_ret. eauto.
Qed.

Lemma grows_alloc (base : heap) (operation : PatchOperation value) :
  grows base (alloc (OOperation operation)) (λ l, (length base ≤ l)%nat).
Proof.
  intros new Hnew. exists (new ++ [OOperation operation])%list.
  unfold alloc. cbn [fst snd]. split_and!.
  - by rewrite app_assoc.
  - apply Forall_app. split; [done|]. apply Forall_singleton. by eexists.
  - intros a [= <-]. rewrite length_app. lia.
Qed.

(** An assignment to an operation object allocated after [base]. *)
Lemma grows_store (base : heap) (l : loc) (operation : PatchOperation value) :
  (length base ≤ l)%nat → grows base (store l (OOperation operation)) (λ _, True).
Proof.
  intros Hl new Hnew. exists (<[l - length base := OOperation operation]> new).
  unfold store. cbn [fst snd]. split_and!; [|by apply Forall_insert; [|eexists]|done].
  by apply insert_app_r_alt.
Qed.

Lemma grows_rename_nested (base : heap) (key : string) (nested operations : list loc) :
  allocated_after base nested → allocated_after base operations →
  grows base (rename_nested key nested operations) (allocated_after base).
Proof.
  revert operations. induction nested as [|l nested IH]; intros operations Hn Ho.
  - by apply grows_ret.
  - apply Forall_cons in Hn as [Hl Hn]. cbn [rename_nested].
    eapply grows_bind; [apply grows_load_operation|]. intros o _.
    eapply grows_bind; [by apply grows_store|]. intros _ _.
    apply IH; [done|]. apply Forall_app. split; [done|by apply Forall_singleton].
Qed.

Lemma merge_to_operations_h_entries (depth : nat) (data : loc) :
  merge_to_operations_h (S depth) data =
  (o ← load data;
   match o with
   | ODict entries => merge_entries_h depth entries []
   | _ => raise AttributeError
   end).
Proof. reflexivity. Qed.

Lemma grows_merge_to_operations_h (depth : nat) (base : heap) (data : loc) :
  grows base (merge_to_operations_h depth data) (allocated_after base).
Proof.
  revert data. induction depth as [|depth IH]; intros data.
  - apply grows_raise.
  - rewrite merge_to_operations_h_entries.
    eapply grows_bind; [apply grows_load|]. intros [entries| |] _;
      [|apply grows_raise..].
    assert (Hnil : allocated_after base []) by apply List.Forall_nil.
    revert Hnil. generalize (@nil loc) as operations.
    induction entries as [|[key v] rest IHrest]; intros operations Hops.
    + by apply grows_ret.
    + assert (Hadd : ∀ operation,
        grows base (l ← alloc (OOperation operation);
                    merge_entries_h depth rest (operations ++ [l])%list)
              (allocated_after base)).
      { intros operation. eapply grows_bind; [apply grows_alloc|].
        intros l Hl. apply IHrest. apply Forall_app.
        split; [done|by apply Forall_singleton]. }
      assert (Hother : ∀ nested : M (list loc),
        (∀ d, v = VRef d → nested = merge_to_operations_h depth d) →
        grows base
          (is_dict ← isinstance_dict v;
           if is_dict : bool then
             nested_operations ← nested;
             operations ← rename_nested key nested_operations operations;
             merge_entries_h depth rest operations
           else
             l ← alloc (OOperation (PatchAddReplaceTest ArtAdd key v));
             merge_entries_h depth rest (operations ++ [l])%list)
          (allocated_after base)).
      { intros nested Hnested.
        eapply grows_bind; [apply grows_isinstance_dict|].
        intros [] Hd; [|apply Hadd].
        destruct (Hd eq_refl) as [d ->]. rewrite (Hnested d eq_refl).
        eapply grows_bind; [apply IH|]. intros nested_operations Hn.
        eapply grows_bind; [by apply grows_rename_nested|].
        intros operations' Ho'. by apply IHrest. }
      destruct v; [apply Hadd|apply Hother; try discriminate..].
      by intros d' [= ->].
Qed.


Section CompilerOverStoreProperties.

Variable resolve : string → ElasticPath.
Variable json_dumps : heap → value → string.

Lemma load_run (l : loc) (h : heap) :
  load l h = (match h !! l with Some o => Ok o | None => Raise TypeError end, h).
Proof. unfold load. by destruct (_ !! l). Qed.

Lemma load_operation_unchanged (l : loc) (h : heap) : (load_operation l h).2 = h.
Proof.
  unfold load_operation, mbind, M_bind. rewrite load_run.
  destruct (_ !! l) as [[| |o]|]; reflexivity.
Qed.

Lemma load_operation_found (l : loc) (h : heap) (o : PatchOperation value) :
  h !! l = Some (OOperation o) → load_operation l h = (Ok o, h).
Proof. intros Hl. unfold load_operation, mbind, M_bind. by rewrite load_run, Hl. Qed.

Lemma loop_h_unchanged (elems : list value) (st : locals value) (h : heap) :
  (loop_h resolve json_dumps st elems h).2 = h.
Proof.
  revert st. induction elems as [|[| | | |l] rest IH]; intros st; try reflexivity.
  cbn [loop_h]. unfold mbind at 1, M_bind at 1.
  pose proof (load_operation_unchanged l h) as Hl.
  destruct (load_operation l h) as [[o|e] h1]; cbn [snd] in Hl; subst h1; [|done].
  unfold mbind at 1, M_bind at 1, lift.
  destruct (loop_body resolve (json_dumps h) st o) as [st'|e]; [apply IH|done].
Qed.

Lemma loop_h_agrees (ls : list loc) (os : list (PatchOperation value))
    (st : locals value) (h : heap) :
  Forall2 (λ l o, h !! l = Some (OOperation o)) ls os →
  (loop_h resolve json_dumps st (VRef <$> ls) h).1 = loop resolve (json_dumps h) st os.
Proof.
  intros Hall. revert st. induction Hall as [|l o ls os Hl _ IH]; intros st; [done|].
  cbn [fmap list_fmap loop_h loop]. unfold mbind at 1, M_bind at 1.
  rewrite (load_operation_found l h o Hl).
  unfold mbind at 1, M_bind at 1, lift.
  destruct (loop_body resolve (json_dumps h) st o) as [st'|e]; [apply IH|done].
Qed.

(** C9, as amended. [operations_to_script] only reads: over the store,
    whether it returns or raises, the store after the call is the store
    before it, so the list object and every field of every operation
    object are what they were. What it returns is what the compiler
    returns on the operations read from the store. *)
Theorem operations_to_script_h_frame (operations : loc) (h : heap) :
  (operations_to_script_h resolve json_dumps operations h).2 = h
  ∧ ∀ (ls : list loc) (os : list (PatchOperation value)),
      h !! operations = Some (OList (VRef <$> ls)) →
      Forall2 (λ l o, h !! l = Some (OOperation o)) ls os →
      (operations_to_script_h resolve json_dumps operations h).1 =
        operations_to_script resolve (json_dumps h) os.
Proof.
  split.
  - unfold operations_to_script_h, mbind at 1, M_bind at 1. rewrite load_run.
    destruct (_ !! operations) as [[|elems|]|]; try reflexivity.
    unfold mbind, M_bind, lift.
    pose proof (loop_h_unchanged elems locals_init h) as Hl.
    destruct (loop_h _ _ _ elems h) as [[st|e] h1]; cbn [snd] in Hl; by subst h1.
  - intros ls os Hlist Hall.
    unfold operations_to_script_h, mbind at 1, M_bind at 1. rewrite load_run, Hlist.
    unfold mbind at 1, M_bind at 1, lift.
    pose proof (loop_h_agrees ls os locals_init h Hall) as Hl.
    pose proof (loop_h_unchanged (VRef <$> ls) locals_init h) as Hh.
    unfold operations_to_script. rewrite <- Hl.
    destruct (loop_h _ _ _ _ h) as [[st|e] h1]; cbn [fst snd] in *; by subst h1.
Qed.

End CompilerOverStoreProperties.

Lemma operations_to_script_h_frame_witness :
  (operations_to_script_h sample_resolve sample_dumps_h 4 sample_operations_heap).2
    = sample_operations_heap
  ∧ (operations_to_script_h sample_resolve sample_dumps_h 4 sample_operations_heap).1
    = operations_to_script sample_resolve (sample_dumps_h sample_operations_heap)
        [PatchAddReplaceTest ArtAdd "/a/b" (VInt 1); PatchRemove "/a/c"].
Proof.
  split.
  - apply (operations_to_script_h_frame sample_resolve sample_dumps_h 4 sample_operations_heap).
  - apply (proj2 (operations_to_script_h_frame sample_resolve sample_dumps_h 4
                    sample_operations_heap) [2; 3]%nat); [reflexivity|].
    repeat constructor.
Defined.

(** C9 as the specification states it fails: operations are assigned to after they
    are constructed. On the document [{"a": {"b": 1, "c": null}}] the
    nested call of [merge_to_operations] returns the operation objects 2
    and 3, constructed with the paths [b] and [c]; the loop of the outer
    call then assigns [a.b] and [a.c] to the [path] of these same
    objects. *)
Lemma nested_operation_path_reassigned :
  ∃ h1 h2,
    merge_to_operations_h 1 0 sample_heap = (Ok [2; 3]%nat, h1)
    ∧ h1 !! 2%nat = Some (OOperation (PatchAddReplaceTest ArtAdd "b" (VInt 1)))
    ∧ h1 !! 3%nat = Some (OOperation (PatchRemove "c"))
    ∧ rename_nested "a" [2; 3]%nat [] h1 = (Ok [2; 3]%nat, h2)
    ∧ merge_to_operations_h 2 1 sample_heap = (Ok [2; 3]%nat, h2)
    ∧ h2 !! 2%nat = Some (OOperation (PatchAddReplaceTest ArtAdd "a.b" (VInt 1)))
    ∧ h2 !! 3%nat = Some (OOperation (PatchRemove "a.c")).
Proof. do 2 eexists. split_and!; reflexivity. Qed.

(** ** The store: the normalizer returns what the function on documents
    returns *)

Lemma represents_mapping (h : heap) (d : list (string * json)) (l : loc) :
  represents h (JObj d) (VRef l) ↔
  ∃ es, h !! l = Some (ODict es) ∧ entries_stand_for h d es.
Proof.
  cbn [represents]. apply exist_proper. intros es. apply and_iff_compat_l.
  unfold entries_stand_for. revert es.
  induction d as [|[k j] d IH]; intros [|[k' v] es].
  - split; [constructor|done].
  - split; [done|inversion 1].
  - split; [done|inversion 1].
  - rewrite Forall2_cons, <- IH. cbn [fst snd]. tauto.
Qed.

Lemma merge_entries_h_cons (depth : nat) (key : string) (v : value)
    (rest : list (string * value)) (operations : list loc) :
  merge_entries_h depth ((key, v) :: rest) operations =
  match v with
  | VNone =>
      l ← alloc (OOperation (PatchRemove key));
      merge_entries_h depth rest (operations ++ [l])%list
  | _ =>
      is_dict ← isinstance_dict v;
      if is_dict : bool then
        nested_operations ←
          match v with
          | VRef d => merge_to_operations_h depth d
          | _ => raise TypeError
          end;
        operations ← rename_nested key nested_operations operations;
        merge_entries_h depth rest operations
      else
        l ← alloc (OOperation (PatchAddReplaceTest ArtAdd key v));
        merge_entries_h depth rest (operations ++ [l])%list
  end.
Proof. by destruct v. Qed.

Lemma alloc_operation (h : heap) (vops : list (PatchOperation value))
    (vo : PatchOperation value) :
  alloc (OOperation vo) (h ++ (OOperation <$> vops))%list =
  (Ok (length h + length vops)%nat, (h ++ (OOperation <$> (vops ++ [vo])))%list).
Proof.
  unfold alloc. rewrite length_app, length_fmap, fmap_app, app_assoc. reflexivity.
Qed.

Lemma rename_nested_run (key : string) (h : heap)
    (todo renamed : list (PatchOperation value)) (operations : list loc) :
  rename_nested key (seq (length h + length renamed) (length todo)) operations
    (h ++ (OOperation <$> (renamed ++ todo)))%list =
  (Ok (operations ++ seq (length h + length renamed) (length todo))%list,
   (h ++ (OOperation <$> (renamed ++ (prefixed key <$> todo))))%list).
Proof.
  revert renamed operations. induction todo as [|vo todo IH]; intros renamed operations.
  - cbn. unfold ret. by rewrite !app_nil_r.
  - cbn [length seq rename_nested fmap list_fmap].
    assert (Hl : (h ++ (OOperation <$> (renamed ++ vo :: todo)))%list
                   !! (length h + length renamed)%nat
                 = Some (OOperation vo)).
    { rewrite lookup_app_r by lia. rewrite list_lookup_fmap.
      replace (length h + length renamed - length h)%nat with (length renamed) by lia.
      by rewrite list_lookup_middle. }
    unfold mbind at 1, M_bind at 1. rewrite (load_operation_found _ _ _ Hl).
    unfold mbind at 1, M_bind at 1, store. cbn [fst snd].
    specialize (IH (renamed ++ [prefixed key vo])%list (operations ++ [length h + length renamed])%list).
    rewrite length_app, <- !app_assoc in IH. cbn [length app] in IH.
    replace (length h + (length renamed + 1))%nat with (S (length h + length renamed)) in IH by lia.
    etrans; [|apply IH]. f_equal. unfold heap in *.
    rewrite !fmap_app, !fmap_cons.
    rewrite insert_app_r_alt by lia.
    rewrite insert_app_r_alt by (rewrite length_fmap; lia).
    replace (length h + length renamed - length h - length (OOperation <$> renamed))%nat
      with 0%nat by (rewrite length_fmap; lia).
    reflexivity.
Qed.

Lemma fold_max_le {A} (f : A → nat) (l : list A) (x : A) :
  x ∈ l → (f x ≤ fold_right (λ y n, Nat.max (f y) n) 0 l)%nat.
Proof.
  induction l as [|y l IH]; [by intros ?%elem_of_nil|].
  intros [->|Hx]%elem_of_cons; cbn [fold_right]; [lia|].
  specialize (IH Hx). lia.
Qed.


Lemma M_bind_ok {A B} (m : M A) (k : A → M B) (h h' : heap) (a : A) :
  m h = (Ok a, h') → (m ≫= k) h = k a h'.
Proof. intros Hm. unfold mbind, M_bind. by rewrite Hm. Qed.

Lemma load_found (l : loc) (h : heap) (o : object) :
  h !! l = Some o → load l h = (Ok o, h).
Proof. intros Hl. by rewrite load_run, Hl. Qed.

Lemma isinstance_dict_ref (h : heap) (l : loc) (o : object) :
  h !! l = Some o →
  isinstance_dict (VRef l) h = (Ok (match o with ODict _ => true | _ => false end), h).
Proof.
  intros Hl. cbn [isinstance_dict]. erewrite M_bind_ok; [reflexivity|].
  by rewrite load_run, Hl.
Qed.

Lemma prefixed_stands_for (h : heap) (key : string) (o : PatchOperation json)
    (vo : PatchOperation value) :
  op_stands_for h o vo → op_stands_for h (prefixed key o) (prefixed key vo).
Proof.
  destruct o, vo; cbn; try done; intros H; destruct_and?; subst; done.
Qed.

Lemma merge_entries_h_run (depth : nat) (h0 ext : heap)
    (d : list (string * json)) (es : list (string * value)) :
  entries_stand_for h0 d es →
  Forall (λ kv, returns_as kv.2) d →
  Forall (λ kv, json_depth kv.2 ≤ depth)%nat d →
  ∀ acc : list (PatchOperation value),
  ∃ more,
    merge_entries_h depth es (seq (length (h0 ++ ext)%list) (length acc))
      ((h0 ++ ext) ++ (OOperation <$> acc))%list =
      (Ok (seq (length (h0 ++ ext)%list) (length (acc ++ more)%list)),
       ((h0 ++ ext) ++ (OOperation <$> (acc ++ more)))%list)
    ∧ Forall2 (op_stands_for h0) (merge_to_operations d) more.
Proof.
  intros Hes. induction Hes as [|[k j] [k' v] d es [Hk Hv] Hes IH];
    intros Hret Hdepth acc.
  - exists []. rewrite app_nil_r. split; [reflexivity|constructor].
  - cbn [fst snd] in Hk, Hv. subst k'.
    apply Forall_cons in Hret as [Hj Hret]. apply Forall_cons in Hdepth as [Hdj Hdepth].
    cbn [fst snd] in Hj, Hdj. specialize (IH Hret Hdepth).
    rewrite merge_entries_h_cons, merge_to_operations_cons.
    assert (Hadd : ∀ (o : PatchOperation json) (vo : PatchOperation value),
      op_stands_for h0 o vo →
      ∃ more,
        (l ← alloc (OOperation vo);
         merge_entries_h depth es (seq (length (h0 ++ ext)%list) (length acc) ++ [l])%list)
          ((h0 ++ ext) ++ (OOperation <$> acc))%list =
          (Ok (seq (length (h0 ++ ext)%list) (length (acc ++ more)%list)),
           ((h0 ++ ext) ++ (OOperation <$> (acc ++ more)))%list)
        ∧ Forall2 (op_stands_for h0) ([o] ++ merge_to_operations d) more).
    { intros o vo Hovo. destruct (IH (acc ++ [vo])%list) as (more & Hrun & Hmore).
      exists (vo :: more). split; [|by constructor].
      erewrite M_bind_ok by apply alloc_operation.
      rewrite <- seq_S.
      replace (length (acc ++ [vo])%list) with (S (length acc)) in Hrun
        by (rewrite length_app; cbn [length]; lia).
      rewrite Hrun. by rewrite <- !app_assoc. }
    assert (Hin : ∀ l' o, h0 !! l' = Some o →
      ((h0 ++ ext) ++ (OOperation <$> acc))%list !! l' = Some o).
    { intros l' o Hl'. by apply lookup_app_l_Some, lookup_app_l_Some. }
    destruct j as [|b|z|s|js|d']; destruct v as [|b'|z'|s'|l'];
      try (cbn in Hv; done); cbn [item_operations].
    + by apply Hadd.
    + erewrite M_bind_ok by reflexivity. by apply Hadd.
    + erewrite M_bind_ok by reflexivity. by apply Hadd.
    + erewrite M_bind_ok by reflexivity. by apply Hadd.
    + pose proof Hv as (elems & Hl' & _).
      erewrite M_bind_ok by (eapply isinstance_dict_ref, Hin, Hl'). by apply Hadd.
    + pose proof Hv as (es' & Hl' & _)%represents_mapping.
      erewrite M_bind_ok by (eapply isinstance_dict_ref, Hin, Hl'). cbn match.
      destruct (Hj d' eq_refl depth h0 (ext ++ (OOperation <$> acc))%list l' Hdj Hv)
        as (sub & Hrun & Hsub).
      rewrite !app_assoc in Hrun. erewrite M_bind_ok by exact Hrun.
      rewrite (length_app (h0 ++ ext)), length_fmap, <- (app_assoc (h0 ++ ext)), <- fmap_app.
      erewrite M_bind_ok by apply rename_nested_run.
      rewrite <- seq_app.
      destruct (IH (acc ++ (prefixed k <$> sub))%list) as (more & Hrun2 & Hmore).
      rewrite (length_app acc), length_fmap in Hrun2. rewrite Hrun2.
      exists ((prefixed k <$> sub) ++ more)%list. rewrite !app_assoc. split; [done|].
      apply Forall2_app; [|done].
      change (map (prefixed k) (merge_to_operations d'))
        with (prefixed k <$> merge_to_operations d').
      apply Forall2_fmap. eapply Forall2_impl; [exact Hsub|].
      intros o vo. apply prefixed_stands_for.
Qed.

Lemma merge_to_operations_h_returns_as (j : json) : returns_as j.
Proof.
  induction j as [| | | | |d IH] using json_nested_ind; intros d' Hd'; try discriminate Hd'.
  injection Hd' as <-. intros depth h0 ext l Hdepth Hrep.
  apply represents_mapping in Hrep as (es & Hl & Hes).
  destruct depth as [|depth]; [cbn in Hdepth; lia|].
  rewrite merge_to_operations_h_entries.
  erewrite M_bind_ok by (apply load_found, lookup_app_l_Some, Hl).
  destruct (merge_entries_h_run depth h0 ext d es Hes IH) with (acc := @nil (PatchOperation value))
    as (more & Hrun & Hmore).
  - apply Forall_forall. intros kv Hkv. cbn [json_depth] in Hdepth.
    pose proof (fold_max_le (λ kv : string * json, json_depth kv.2) d kv Hkv). lia.
  - exists more. cbn [fmap list_fmap length seq app] in Hrun.
    rewrite app_nil_r in Hrun. done.
Qed.


Lemma represents_extend (h ext : heap) (j : json) (v : value) :
  represents h j v → represents (h ++ ext)%list j v.
Proof.
  revert v. induction j as [| | | |js IH|d IH] using json_nested_ind;
    intros [| | | |l]; try done.
  - cbn [represents]. intros (elems & Hl & Hall). exists elems.
    split; [by apply lookup_app_l_Some|]. clear Hl. revert elems Hall.
    induction IH as [|j js Hj _ IHjs]; intros [|v elems]; try done.
    intros [Hv Hall]. split; [by apply Hj|by apply IHjs].
  - cbn [represents]. intros (es & Hl & Hall). exists es.
    split; [by apply lookup_app_l_Some|]. clear Hl. revert es Hall.
    induction IH as [|[k j] d Hj _ IHd]; intros [|[k' v] es]; try done.
    intros (Hk & Hv & Hall). split_and!; [done|by apply Hj|by apply IHd].
Qed.

(** C10. Running [merge_to_operations] over the store, at any recursion
    depth and whether it returns or raises, leaves every object that was
    there before the call as it was: the mapping, the mappings nested in
    it and the values they hold. The store after the call is the store
    before it followed by new objects, and all of these are operation
    objects. When the store holds a document at [data] and the depth
    allows its nesting, the call returns, the new objects are the
    operations of [merge_to_operations] on the document, and the store
    still holds the same document at [data]. *)
Theorem merge_to_operations_h_frame (depth : nat) (data : loc) (h : heap) :
  (∃ new,
     (merge_to_operations_h depth data h).2 = (h ++ new)%list
     ∧ Forall is_operation new
     ∧ (∀ l o, h !! l = Some o → (merge_to_operations_h depth data h).2 !! l = Some o)
     ∧ (∀ ops, (merge_to_operations_h depth data h).1 = Ok ops → allocated_after h ops))
  ∧ (∀ d, represents h (JObj d) (VRef data) → (json_depth (JObj d) ≤ depth)%nat →
       ∃ vops,
         merge_to_operations_h depth data h =
           (Ok (seq (length h) (length vops)), (h ++ (OOperation <$> vops))%list)
         ∧ Forall2 (op_stands_for h) (merge_to_operations d) vops
         ∧ represents (h ++ (OOperation <$> vops))%list (JObj d) (VRef data)).
Proof.
  split.
  - destruct (grows_merge_to_operations_h depth h data [] (List.Forall_nil _))
      as (new & Hh & Hnew & Hops).
    rewrite app_nil_r in *. exists new. split_and!; [done..| |done].
    intros l o Hl. rewrite Hh. by apply lookup_app_l_Some.
  - intros d Hrep Hdepth.
    destruct (merge_to_operations_h_returns_as (JObj d) d eq_refl depth h [] data Hdepth Hrep)
      as (vops & Hrun & Hvops).
    rewrite app_nil_r in Hrun. exists vops. split_and!; [done..|].
    by apply represents_extend.
Qed.

Lemma merge_to_operations_h_frame_witness :
  ∃ vops,
    merge_to_operations_h 2 1 sample_heap =
      (Ok (seq (length sample_heap) (length vops)), (sample_heap ++ (OOperation <$> vops))%list)
    ∧ Forall2 (op_stands_for sample_heap) (merge_to_operations sample_document) vops
    ∧ represents (sample_heap ++ (OOperation <$> vops))%list (JObj sample_document) (VRef 1).
Proof.
  apply (proj2 (merge_to_operations_h_frame 2 1 sample_heap) sample_document).
  - cbn. exists [("a", VRef 0%nat)]. split; [reflexivity|]. split_and!; try done.
    exists [("b", VInt 1); ("c", VNone)]. done.
  - cbn. lia.
Defined.

Example merge_to_operations_h_sample :
  merge_to_operations_h 2 1 sample_heap =
  (Ok [2; 3]%nat,
   (sample_heap ++
    [OOperation (PatchAddReplaceTest ArtAdd "a.b" (VInt 1));
     OOperation (PatchRemove "a.c")])%list).
Proof. reflexivity. Qed.

(** * Further properties *)

(** ** Texts *)

Lemma string_append_assoc (a b c : string) : (a +:+ b) +:+ c = a +:+ (b +:+ c).
Proof.
  induction a as [|x a IH]; [done|].
  change (String x ((a +:+ b) +:+ c) = String x (a +:+ (b +:+ c))). by rewrite IH.
Qed.

Lemma string_append_nil_r (a : string) : a +:+ "" = a.
Proof.
  induction a as [|x a IH]; [done|].
  change (String x (a +:+ "") = String x a). by rewrite IH.
Qed.

Lemma join_app (l1 l2 : list string) :
  String.concat "" (l1 ++ l2)%list = String.concat "" l1 +:+ String.concat "" l2.
Proof.
  induction l1 as [|x l1 IH]; [done|].
  cbn [app]. destruct l1 as [|y l1].
  - cbn [app String.concat]. destruct l2; cbn; [by rewrite string_append_nil_r|done].
  - change (String.concat "" (x :: (y :: l1) ++ l2))
      with (x +:+ "" +:+ String.concat "" ((y :: l1) ++ l2)).
    change (String.concat "" (x :: y :: l1)) with (x +:+ "" +:+ String.concat "" (y :: l1)).
    rewrite IH. cbn [String.append]. by rewrite string_append_assoc.
Qed.

Section CompileFurther.

Context {V : Type}.
Variable resolve : string → ElasticPath.
Variable json_dumps : V → string.

(** X1. The compiler raises on the empty list only: every non-empty list
    compiles to a script tagged [painless], and the one error it can end
    in is the unbound [source] of the empty list. *)
Theorem operations_to_script_raises_only_on_empty (ops : list (PatchOperation V)) :
  (ops ≠ [] → ∃ s, operations_to_script resolve json_dumps ops = Ok s ∧ lang s = "painless")
  ∧ (∀ e, operations_to_script resolve json_dumps ops = Raise e →
       ops = [] ∧ e = UnboundLocalError).
Proof.
  destruct ops as [|o rest].
  - split; [done|]. intros e [= <-]. done.
  - rewrite operations_to_script_cons. split; [eauto|discriminate].
Qed.

(** X2. Appending operations to a list only appends to its script: the
    source of the longer list starts with the source of the shorter. *)
Theorem operations_to_script_source_grows (ops1 ops2 : list (PatchOperation V)) :
  ops1 ≠ [] →
  ∃ s1 s12 rest,
    operations_to_script resolve json_dumps ops1 = Ok s1
    ∧ operations_to_script resolve json_dumps (ops1 ++ ops2) = Ok s12
    ∧ source s12 = source s1 +:+ rest.
Proof.
  intros Hne.
  destruct (add_all_extends
              (add_all [] (flat_map (statements resolve json_dumps) ops1))
              (flat_map (statements resolve json_dumps) ops2)) as (new & Hnew & _).
  do 2 eexists. exists (String.concat "" new). split_and!.
  - by apply operations_to_script_nonempty.
  - apply operations_to_script_nonempty. by destruct ops1.
  - cbn [source]. by rewrite flat_map_app, add_all_app, Hnew, join_app.
Qed.

Lemma bound_union (o : PatchOperation V) (m : gmap string V) :
  bound resolve o m = bound resolve o ∅ ∪ m.
Proof.
  destruct o; cbn [bound]; rewrite ?(left_id_L ∅ (∪)); [|done..].
  by rewrite insert_union_singleton_l, insert_empty.
Qed.

Lemma fold_bound_union (ops : list (PatchOperation V)) (m : gmap string V) :
  fold_left (λ ps o, bound resolve o ps) ops m =
  fold_left (λ ps o, bound resolve o ps) ops ∅ ∪ m.
Proof.
  revert m. induction ops as [|o ops IH]; intros m; cbn [fold_left].
  - by rewrite (left_id_L ∅ (∪)).
  - rewrite IH, (IH (bound _ _ ∅)), (bound_union o m). by rewrite (assoc_L (∪)).
Qed.

(** X3. The parameters of a concatenation are the parameters of the two
    parts, those of the later part winning where both bind a key. *)
Theorem operations_to_script_params_union (ops1 ops2 : list (PatchOperation V))
    (s1 s2 : script V) :
  operations_to_script resolve json_dumps ops1 = Ok s1 →
  operations_to_script resolve json_dumps ops2 = Ok s2 →
  ∃ s12,
    operations_to_script resolve json_dumps (ops1 ++ ops2) = Ok s12
    ∧ params s12 = params s2 ∪ params s1.
Proof.
  intros H1 H2.
  destruct ops1 as [|o1 ops1]; [discriminate H1|].
  destruct ops2 as [|o2 ops2]; [discriminate H2|].
  rewrite operations_to_script_cons in H1, H2.
  injection H1 as <-. injection H2 as <-.
  eexists. split; [by apply operations_to_script_nonempty|].
  cbn [params]. by rewrite fold_left_app, fold_bound_union.
Qed.

Lemma fold_bound_lookup (ops : list (PatchOperation V)) (m : gmap string V)
    (k : string) (v : V) :
  fold_left (λ ps o, bound resolve o ps) ops m !! k = Some v →
  m !! k = Some v
  ∨ ∃ a p, PatchAddReplaceTest a p v ∈ ops ∧ param_key (resolve p) = k.
Proof.
  revert m. induction ops as [|o ops IH]; intros m; cbn [fold_left]; [by left|].
  intros [Hm|(a & p & Hin & Hk)]%IH.
  - destruct o as [a p w| |]; cbn [bound] in Hm; [|by left..].
    destruct (decide (param_key (resolve p) = k)) as [<-|Hne].
    + rewrite lookup_insert_eq in Hm. injection Hm as ->.
      right. exists a, p. split; [left|done].
    + rewrite lookup_insert_ne in Hm by done. by left.
  - right. exists a, p. split; [by right|done].
Qed.

(** X4. Every parameter of a compiled script is the value of an add,
    replace or test operation of the list, under the parameter key of its
    target; a list of remove, move and copy operations binds none. *)
Theorem operations_to_script_params_origin (ops : list (PatchOperation V))
    (s : script V) :
  operations_to_script resolve json_dumps ops = Ok s →
  (∀ k v, params s !! k = Some v →
     ∃ a p, PatchAddReplaceTest a p v ∈ ops ∧ param_key (resolve p) = k)
  ∧ ((∀ o, o ∈ ops → operation_value o = None) → params s = ∅).
Proof.
  intros Hs. destruct ops as [|o ops]; [discriminate Hs|].
  rewrite operations_to_script_cons in Hs. injection Hs as <-. cbn [params].
  assert (Horigin : ∀ k v,
    fold_left (λ ps o, bound resolve o ps) (o :: ops) ∅ !! k = Some v →
    ∃ a p, PatchAddReplaceTest a p v ∈ o :: ops ∧ param_key (resolve p) = k).
  { intros k v [Hm|H]%fold_bound_lookup; [by rewrite lookup_empty in Hm|done]. }
  split; [exact Horigin|].
  intros Hnone. apply map_empty. intros k.
  destruct (_ !! k) as [v|] eqn:Hk; [|done].
  destruct (Horigin k v Hk) as (a & p & Hin & _).
  by specialize (Hnone _ Hin).
Qed.

Lemma statements_remove (p : string) :
  statements resolve json_dumps (PatchRemove p) =
  (check_guards OpRemove (resolve p) false ++ [remove_statement (resolve p)])%list.
Proof. reflexivity. Qed.

(** X5. A remove compiled on its own: the guards, the key guard among
    them whatever the index, then the Remove statement; no parameter is
    bound. *)
Theorem remove_compiles_guarded (p : string) :
  let tgt := resolve p in
  let guards := check_commands [] OpRemove tgt false in
  operations_to_script resolve json_dumps [PatchRemove p] =
    Ok {| source := String.concat "" (guards ++ [remove_statement tgt]);
          lang := "painless"; params := ∅ |}
  ∧ key_guard tgt ∈ guards
  ∧ Forall is_guard guards
  ∧ ¬ is_guard (remove_statement tgt).
Proof.
  intros tgt guards. split_and!.
  - rewrite operations_to_script_cons. do 2 f_equal.
    cbn [flat_map]. rewrite app_nil_r, statements_remove.
    fold tgt. subst guards. rewrite check_commands_add_all.
    rewrite add_all_snoc_fresh; [done|apply not_elem_of_nil|].
    intros Hin%check_guards_is_guard. apply (is_guard_not_remove _ Hin). by exists tgt.
  - subst guards. apply key_guard_appended. cbn. by rewrite orb_true_r.
  - subst guards. apply Forall_forall. intros s Hs.
    rewrite check_commands_add_all, elem_of_add_all, elem_of_nil in Hs.
    destruct Hs as [[]|Hs]. by eapply check_guards_is_guard.
  - intros Hg. apply (is_guard_not_remove _ Hg). by exists tgt.
Qed.


Lemma key_guard_in_check_guards (op : Op) (p : ElasticPath) (from_path : bool) :
  truthy_int (index p) || Op_in op [OpRemove; OpReplace; OpTest] || from_path = true →
  key_guard p ∈ check_guards op p from_path.
Proof.
  intros Hc. unfold check_guards. rewrite Hc. apply elem_of_app. right.
  apply elem_of_app. left. by left.
Qed.




(** X7. In any list, every remove, replace and test has the key guard of
    its target among the compiled statements, and every move and copy the
    key guard of its source. *)
Theorem operations_to_script_guards_targets (ops : list (PatchOperation V))
    (o : PatchOperation V) :
  o ∈ ops →
  ∃ commands ps,
    operations_to_script resolve json_dumps ops =
      Ok {| source := String.concat "" commands; lang := "painless"; params := ps |}
    ∧ (needs_target o = true → key_guard (resolve (operation_path o)) ∈ commands)
    ∧ (∀ f, operation_from_ o = Some f → key_guard (resolve f) ∈ commands).
Proof.
  intros Ho. do 2 eexists. split_and!.
  - apply operations_to_script_nonempty. intros ->. by apply elem_of_nil in Ho.
  - intros Hn. eapply statements_compiled; [exact Ho|].
    unfold statements. apply elem_of_app. left.
    apply key_guard_in_check_guards. unfold needs_target in Hn. rewrite Hn.
    by rewrite orb_true_r.
  - intros f Hf. eapply statements_compiled; [exact Ho|].
    unfold statements. rewrite Hf. apply elem_of_app. right. apply elem_of_app. left.
    apply key_guard_in_check_guards. by rewrite orb_true_r.
Qed.

(** X8. An add at a top-level key (no parent, no index) is unconditional:
    compiled on its own it is the one assignment from its parameter, with
    no guard in front. *)
Theorem add_top_level_unconditional (p : string) (v : V) :
  let tgt := resolve p in
  truthy_str (nest tgt) = false → index tgt = None →
  operations_to_script resolve json_dumps [PatchAddReplaceTest ArtAdd p v] =
    Ok {| source := "ctx._source." +:+ es_path tgt +:+ " = params." +:+ param_key tgt +:+ ";";
          lang := "painless";
          params := {[param_key tgt := v]} |}.
Proof.
  intros tgt Hnest Hindex. rewrite operations_to_script_cons.
  cbn [flat_map fold_left bound]. rewrite app_nil_r. unfold statements, check_guards.
  cbn [operation_op operation_path operation_from_ Op_in existsb Op_eqb orb].
  fold tgt. unfold add_statement. rewrite Hnest, Hindex.
  cbn [truthy_int orb andb app add_all fold_left]. rewrite insert_empty.
  reflexivity.
Qed.


End CompileFurther.
(** ** Guards *)

Lemma add_all_extends_length (commands : ESCommandSet) (l : list string) :
  ∃ new, add_all commands l = (commands ++ new)%list
         ∧ (∀ x, x ∈ new → x ∈ l) ∧ (length new ≤ length l)%nat.
Proof.
  revert commands. induction l as [|a l IH]; intros commands; cbn [add_all fold_left].
  - exists []. rewrite app_nil_r. split_and!; [done| |done]. by intros x ?%elem_of_nil.
  - destruct (IH (ESCommandSet_add commands a)) as (new & Hrun & Hnew & Hlen).
    unfold add_all in Hrun. rewrite Hrun. unfold ESCommandSet_add. case_decide.
    + exists new. split_and!; [done| |cbn [length]; lia].
      intros x Hx. right. by apply Hnew.
    + exists (a :: new). rewrite <- app_assoc. split_and!; [done| |cbn [length]; lia].
      intros x [->|Hx]%elem_of_cons; [left|right; by apply Hnew].
Qed.

(** X9. [check_commands] only appends: the commands it is given stay in
    front, in their order, followed by at most three new statements, all
    of them guards. *)
Theorem check_commands_appends_guards (commands : ESCommandSet) (op : Op)
    (p : ElasticPath) (from_path : bool) :
  ∃ new,
    check_commands commands op p from_path = (commands ++ new)%list
    ∧ Forall is_guard new
    ∧ (length new ≤ 3)%nat.
Proof.
  rewrite check_commands_add_all.
  destruct (add_all_extends_length commands (check_guards op p from_path))
    as (new & Hrun & Hnew & Hlen).
  exists new. split_and!; [done| |].
  - apply Forall_forall. intros s Hs. eapply check_guards_is_guard. by apply Hnew.
  - etrans; [exact Hlen|]. unfold check_guards. rewrite !length_app.
    destruct (truthy_str _), (_ || _ || _), (_ && _); cbn [length]; lia.
Qed.

(** X10. Checking the same path again adds nothing. *)
Theorem check_commands_idempotent (commands : ESCommandSet) (op : Op)
    (p : ElasticPath) (from_path : bool) :
  check_commands (check_commands commands op p from_path) op p from_path =
  check_commands commands op p from_path.
Proof.
  rewrite !check_commands_add_all. apply add_all_present.
  intros s Hs. apply elem_of_add_all. by right.
Qed.

(** X11. On the source side of a move or copy the key guard is always
    put, and with it the index guard as soon as the descriptor has an
    index, 0 included. *)
Theorem check_commands_source_side (commands : ESCommandSet) (op : Op)
    (p : ElasticPath) :
  key_guard p ∈ check_commands commands op p true
  ∧ (∀ i, index p = Some i → source_index_guard p ∈ check_commands commands op p true).
Proof.
  rewrite check_commands_add_all. split.
  - apply elem_of_add_all. right. apply key_guard_in_check_guards.
    by rewrite orb_true_r.
  - intros i Hi. apply elem_of_add_all. right. unfold check_guards. rewrite Hi.
    cbn [andb is_not_None]. rewrite !elem_of_app. right. right. by left.
Qed.

(** X12. For a target path, and for a path without an index, no index
    guard is put: none of the statements the call appends is an index
    guard. *)
Theorem check_commands_no_index_guard (commands : ESCommandSet) (op : Op)
    (p : ElasticPath) (from_path : bool) :
  from_path = false ∨ index p = None →
  ∃ new,
    check_commands commands op p from_path = (commands ++ new)%list
    ∧ Forall (λ s, ∀ q, s ≠ source_index_guard q) new.
Proof.
  intros Hside. rewrite check_commands_add_all.
  destruct (add_all_extends_length commands (check_guards op p from_path))
    as (new & Hrun & Hnew & _).
  exists new. split; [done|]. apply Forall_forall. intros s Hs%Hnew q ->.
  unfold check_guards in Hs.
  replace (from_path && is_not_None (index p)) with false in Hs
    by (destruct Hside as [->| ->]; [done|by rewrite andb_false_r]).
  rewrite app_nil_r in Hs. apply elem_of_app in Hs as [Hs|Hs].
  - destruct (truthy_str _); [|by apply elem_of_nil in Hs].
    apply list_elem_of_singleton in Hs. discriminate Hs.
  - destruct (_ || _ || _); [|by apply elem_of_nil in Hs].
    apply list_elem_of_singleton in Hs. discriminate Hs.
Qed.

(** X13. The test of line 109 decides the key guard: where it holds the
    key guard is among the commands after the call; where it fails the
    call puts the parent guard at most. *)
Theorem check_commands_key_guard_test (commands : ESCommandSet) (op : Op)
    (p : ElasticPath) (from_path : bool) :
  let test := truthy_int (index p) || Op_in op [OpRemove; OpReplace; OpTest] || from_path in
  (test = true → key_guard p ∈ check_commands commands op p from_path)
  ∧ (test = false →
       check_commands commands op p from_path =
         if truthy_str (nest p) then ESCommandSet_add commands (nest_guard p)
         else commands).
Proof.
  intros test. split; intros Ht.
  - rewrite check_commands_add_all. apply elem_of_add_all. right.
    by apply key_guard_in_check_guards.
  - unfold check_commands. fold test. rewrite Ht.
    apply orb_false_elim in Ht as [_ ->]. cbn [andb]. done.
Qed.

(** ** The refresh parameter *)

Section RefreshFurther.

Variable get_bool_env : string → refresh_value → bool.
Variable unicode_lower : string → string.

(** X14. Whatever the input and the environment, the result is one of
    ["true"], ["false"] and ["wait_for"]. *)
Theorem validate_refresh_range (value : refresh_value) :
  (validate_refresh get_bool_env unicode_lower value).1 ∈ refresh_results.
Proof.
  unfold validate_refresh, refresh_results.
  destruct value as [b|s].
  - cbn [fst]. destruct (get_bool_env _ _); set_solver.
  - destruct (existsb _ _).
    + cbn [fst]. destruct (get_bool_env _ _); set_solver.
    + destruct (String.eqb _ _); cbn [fst]; set_solver.
Qed.

(** X15. A warning is logged exactly for a text that is neither one of
    the eight lower-case boolean texts nor ["wait_for"] in some letter
    case; the result is then ["false"] and the warning is the only one. *)
Theorem validate_refresh_warns_on_invalid (value : refresh_value) :
  (validate_refresh get_bool_env unicode_lower value).2 ≠ [] ↔
  ∃ s, value = RStr s ∧ (s ∉ boolean_like) ∧ lower unicode_lower s ≠ "wait_for"
       ∧ validate_refresh get_bool_env unicode_lower value =
           ("false", [invalid_refresh_warning (lower unicode_lower s)]).
Proof.
  split.
  - destruct value as [b|s]; [done|]. intros Hw. exists s.
    destruct (decide (s ∈ boolean_like)) as [Hb|Hb].
    { by rewrite validate_refresh_boolean_like in Hw. }
    destruct (decide (lower unicode_lower s = "wait_for")) as [Hl|Hl].
    { by rewrite validate_refresh_wait_for in Hw. }
    split_and!; [done..|]. by apply validate_refresh_other.
  - intros (s & -> & Hb & Hl & ->). done.
Qed.

End RefreshFurther.

(** X16. The environment is consulted for booleans and the eight
    lower-case boolean texts only: on any other text two environments give
    the same result and the same warnings. *)
Theorem validate_refresh_ignores_environment
    (env1 env2 : string → refresh_value → bool) (unicode_lower : string → string)
    (s : string) :
  s ∉ boolean_like →
  validate_refresh env1 unicode_lower (RStr s) = validate_refresh env2 unicode_lower (RStr s).
Proof.
  intros Hb. unfold validate_refresh.
  destruct (existsb (String.eqb s) boolean_like) eqn:He; [|done].
  by apply existsb_boolean_like in He.
Qed.

(** X17. ["wait_for"] in any letter case is returned as ["wait_for"],
    with no warning and whatever the environment. *)
Theorem validate_refresh_wait_for_any_case
    (get_bool_env : string → refresh_value → bool) (unicode_lower : string → string)
    (s : string) :
  lower unicode_lower s = "wait_for" →
  validate_refresh get_bool_env unicode_lower (RStr s) = ("wait_for", []).
Proof. apply validate_refresh_wait_for. Qed.
(** ** The operation normalizer *)

(** X18. The operations of a mapping are those of its first entries
    followed by those of the rest: the normalizer distributes over the
    concatenation of entry lists. *)
Theorem merge_to_operations_app (d1 d2 : list (string * json)) :
  merge_to_operations (d1 ++ d2) = (merge_to_operations d1 ++ merge_to_operations d2)%list.
Proof.
  induction d1 as [|[key v] d1 IH]; [done|].
  cbn [app]. by rewrite !merge_to_operations_cons, IH, app_assoc.
Qed.

Lemma prefixed_remove_or_add_leaf (key : string) (o : PatchOperation json) :
  remove_or_add_leaf o → remove_or_add_leaf (prefixed key o).
Proof. by destruct o as [[] p v|p|k p f]. Qed.

(** X19. The normalizer builds removes and adds only: no replace, move,
    copy or test, and no add whose value is [None] or a mapping. *)
Theorem merge_to_operations_only_remove_add (data : list (string * json)) :
  Forall remove_or_add_leaf (merge_to_operations data).
Proof.
  change (match JObj data with
          | JObj d => Forall remove_or_add_leaf (merge_to_operations d)
          | _ => True
          end).
  generalize (JObj data) as j. clear data.
  induction j as [| | | | |d IH] using json_nested_ind; try exact I.
  induction d as [|[key v] rest IHrest]; [constructor|].
  apply Forall_cons in IH as [IHv IH]. specialize (IHrest IH). cbn [snd] in IHv.
  rewrite merge_to_operations_cons. apply Forall_app. split; [|done].
  destruct v; cbn [item_operations];
    try (apply Forall_singleton; cbn; split; [discriminate|intros ?; discriminate]).
  - by apply Forall_singleton.
  - change (map (prefixed key) (merge_to_operations d))
      with (prefixed key <$> merge_to_operations d).
    apply Forall_fmap. eapply Forall_impl; [exact IHv|].
    intros o. apply prefixed_remove_or_add_leaf.
Qed.

Lemma prefixed_prefixed (a b : string) (o : PatchOperation json) :
  prefixed a (prefixed b o) = prefixed (a +:+ "." +:+ b) o.
Proof.
  unfold prefixed. destruct o; cbn [set_operation_path operation_path];
    by rewrite !string_append_assoc.
Qed.

(** X20. A dotted key and a nested key are not told apart: the entry
    [a.b] and the entry [b] of a mapping under [a] give the same
    operations. *)
Theorem merge_to_operations_dotted_key (a b : string) (v : json) :
  merge_to_operations [(a +:+ "." +:+ b, v)] =
  merge_to_operations [(a, JObj [(b, v)])].
Proof.
  rewrite !merge_to_operations_cons. cbn [item_operations].
  rewrite merge_to_operations_cons.
  change (merge_to_operations []) with (@nil (PatchOperation json)).
  rewrite !app_nil_r.
  destruct v; cbn [item_operations map]; try reflexivity.
  rewrite map_map. apply map_ext. intros o. by rewrite prefixed_prefixed.
Qed.
Lemma merge_to_operations_nil_iff (data : list (string * json)) :
  merge_to_operations data = [] ↔ leaves_under [] (JObj data) = [].
Proof.
  pose proof (leaves_merge (JObj data) []) as Hl. cbn match in Hl.
  split; intros H.
  - rewrite H in Hl. by apply map_eq_nil in Hl.
  - rewrite H in Hl. symmetry in Hl. by apply map_eq_nil in Hl.
Qed.

(** X21. Normalizing a mapping and compiling the result: a mapping
    without a leaf (the empty mapping, or one that holds only empty
    mappings) gives no operation, and the compiler raises on it; any
    mapping with a leaf compiles. *)
Theorem merge_then_compile {resolve : string → ElasticPath} {json_dumps : json → string}
    (data : list (string * json)) :
  (leaves_under [] (JObj data) = [] →
     merge_to_operations data = []
     ∧ operations_to_script resolve json_dumps (merge_to_operations data) =
         Raise UnboundLocalError)
  ∧ (leaves_under [] (JObj data) ≠ [] →
       ∃ s, operations_to_script resolve json_dumps (merge_to_operations data) = Ok s).
Proof.
  split; intros Hl.
  - apply merge_to_operations_nil_iff in Hl. by rewrite Hl.
  - rewrite <- merge_to_operations_nil_iff in Hl.
    eexists. by apply operations_to_script_nonempty.
Qed.

(** ** The store *)

(** X22. On a store that holds a document, the operation objects
    [merge_to_operations] returns are new, pairwise distinct, and as many
    as the operations of the document: no object is returned twice, so the
    assignment of line 79 prefixes each path once per level. *)
Theorem merge_to_operations_h_fresh_objects (depth : nat) (data : loc) (h : heap)
    (d : list (string * json)) :
  represents h (JObj d) (VRef data) → (json_depth (JObj d) ≤ depth)%nat →
  ∃ ops h',
    merge_to_operations_h depth data h = (Ok ops, h')
    ∧ NoDup ops
    ∧ length ops = length (merge_to_operations d)
    ∧ Forall (λ l, (length h ≤ l < length h')%nat) ops.
Proof.
  intros Hrep Hdepth.
  destruct (merge_to_operations_h_returns_as (JObj d) d eq_refl depth h [] data Hdepth Hrep)
    as (vops & Hrun & Hvops).
  rewrite app_nil_r in Hrun. do 2 eexists. split; [exact Hrun|]. split_and!.
  - apply NoDup_ListNoDup, seq_NoDup.
  - rewrite length_seq. symmetry. by eapply Forall2_length.
  - apply Forall_forall. intros l Hl%list_elem_of_In%in_seq.
    rewrite length_app, length_fmap. lia.
Qed.
(** ** Instances *)

Lemma operations_to_script_raises_only_on_empty_witness :
  (∃ s, operations_to_script sample_resolve sample_dumps [PatchRemove "/x"] = Ok s
        ∧ lang s = "painless")
  ∧ ([] = @nil (PatchOperation json) ∧ UnboundLocalError = UnboundLocalError).
Proof.
  split.
  - apply (proj1 (operations_to_script_raises_only_on_empty sample_resolve sample_dumps
                    [PatchRemove "/x"])). discriminate.
  - apply (proj2 (operations_to_script_raises_only_on_empty sample_resolve sample_dumps [])
             UnboundLocalError). reflexivity.
Defined.

Lemma operations_to_script_source_grows_witness :
  ∃ s1 s12 rest,
    operations_to_script sample_resolve sample_dumps [PatchRemove "/x"] = Ok s1
    ∧ operations_to_script sample_resolve sample_dumps
        ([PatchRemove "/x"] ++ [PatchAddReplaceTest ArtAdd "/y" (JNum 1)]) = Ok s12
    ∧ source s12 = source s1 +:+ rest.
Proof.
  apply (operations_to_script_source_grows sample_resolve sample_dumps
           [PatchRemove "/x"] [PatchAddReplaceTest ArtAdd "/y" (JNum 1)]).
  discriminate.
Defined.

Lemma operations_to_script_params_union_witness :
  ∃ s12,
    operations_to_script sample_resolve sample_dumps
      ([PatchAddReplaceTest ArtAdd "/x" (JNum 1); PatchAddReplaceTest ArtAdd "/y" (JNum 2)]
       ++ [PatchAddReplaceTest ArtReplace "/x" (JNum 3)]) = Ok s12
    ∧ params s12 = {["x" := JNum 3]} ∪ {["y" := JNum 2; "x" := JNum 1]}.
Proof.
  refine (operations_to_script_params_union sample_resolve sample_dumps
           [PatchAddReplaceTest ArtAdd "/x" (JNum 1); PatchAddReplaceTest ArtAdd "/y" (JNum 2)]
           [PatchAddReplaceTest ArtReplace "/x" (JNum 3)]
           {| source := "ctx._source.x = params.x;ctx._source.y = params.y;";
              lang := "painless"; params := {["y" := JNum 2; "x" := JNum 1]} |}
           {| source := "if (!ctx._source.containsKey('x')){Debug.explain('x  does not exist in ');}ctx._source.x = params.x;";
              lang := "painless"; params := {["x" := JNum 3]} |} _ _);
    reflexivity.
Defined.

Lemma operations_to_script_params_origin_witness :
  (∀ k v, ({["x" := JNum 1]} : gmap string json) !! k = Some v →
     ∃ a p, PatchAddReplaceTest a p v ∈
              [PatchMoveCopy McCopy "/y" "/z"; PatchAddReplaceTest ArtTest "/x" (JNum 1)]
            ∧ param_key (sample_resolve p) = k)
  ∧ ((∀ o, o ∈ [PatchMoveCopy McCopy "/y" "/z"; PatchAddReplaceTest ArtTest "/x" (JNum 1)] →
        operation_value o = None) →
     ({["x" := JNum 1]} : gmap string json) = ∅).
Proof.
  refine (operations_to_script_params_origin sample_resolve sample_dumps
           [PatchMoveCopy McCopy "/y" "/z"; PatchAddReplaceTest ArtTest "/x" (JNum 1)]
           {| source := "if (!ctx._source.containsKey('z')){Debug.explain('z  does not exist in ');}ctx._source.y = ctx._source.z;if (!ctx._source.containsKey('x')){Debug.explain('x  does not exist in ');}if (ctx._source.x != params.x){Debug.explain('Test failed `x` | 1 != ' + ctx._source.x);}";
              lang := "painless"; params := {["x" := JNum 1]} |} _).
  reflexivity.
Defined.

Lemma operations_to_script_guards_targets_witness :
  ∃ commands ps,
    operations_to_script sample_resolve sample_dumps
      [PatchAddReplaceTest ArtAdd "/y" (JNum 1); PatchAddReplaceTest ArtReplace "/a/b" (JNum 2)] =
      Ok {| source := String.concat "" commands; lang := "painless"; params := ps |}
    ∧ (needs_target (PatchAddReplaceTest ArtReplace "/a/b" (JNum 2)) = true →
       key_guard (sample_resolve "/a/b") ∈ commands)
    ∧ (∀ f, operation_from_ (PatchAddReplaceTest ArtReplace "/a/b" (JNum 2)) = Some f →
       key_guard (sample_resolve f) ∈ commands).
Proof.
  apply (operations_to_script_guards_targets sample_resolve sample_dumps
           [PatchAddReplaceTest ArtAdd "/y" (JNum 1);
            PatchAddReplaceTest ArtReplace "/a/b" (JNum 2)]
           (PatchAddReplaceTest ArtReplace "/a/b" (JNum 2))).
  right. left.
Defined.

Lemma add_top_level_unconditional_witness :
  operations_to_script sample_resolve sample_dumps [PatchAddReplaceTest ArtAdd "/y" (JNum 1)] =
  Ok {| source := "ctx._source.y = params.y;"; lang := "painless";
        params := {["y" := JNum 1]} |}.
Proof.
  exact (add_top_level_unconditional sample_resolve sample_dumps "/y" (JNum 1)
           eq_refl eq_refl).
Defined.

Lemma check_commands_source_side_witness :
  key_guard (sample_resolve "/a/0") ∈ check_commands [] OpMove (sample_resolve "/a/0") true
  ∧ source_index_guard (sample_resolve "/a/0")
      ∈ check_commands [] OpMove (sample_resolve "/a/0") true.
Proof.
  split.
  - apply (proj1 (check_commands_source_side [] OpMove (sample_resolve "/a/0"))).
  - apply (proj2 (check_commands_source_side [] OpMove (sample_resolve "/a/0")) 0%Z).
    reflexivity.
Defined.

Lemma check_commands_no_index_guard_witness :
  ∃ new,
    check_commands [] OpAdd (sample_resolve "/a/0") false = ([] ++ new)%list
    ∧ Forall (λ s, ∀ q, s ≠ source_index_guard q) new.
Proof.
  apply (check_commands_no_index_guard [] OpAdd (sample_resolve "/a/0") false).
  by left.
Defined.

Lemma check_commands_key_guard_test_witness :
  key_guard (sample_resolve "/a/b") ∈ check_commands [] OpReplace (sample_resolve "/a/b") false
  ∧ check_commands [] OpAdd (sample_resolve "/a/b") false = [nest_guard (sample_resolve "/a/b")].
Proof.
  split.
  - apply (proj1 (check_commands_key_guard_test [] OpReplace (sample_resolve "/a/b") false)).
    reflexivity.
  - apply (proj2 (check_commands_key_guard_test [] OpAdd (sample_resolve "/a/b") false)).
    reflexivity.
Defined.

Lemma garbage_not_boolean_like : "garbage" ∉ boolean_like.
Proof.
  intros H. unfold boolean_like in H.
  repeat (apply elem_of_cons in H as [H|H]; [discriminate H|]).
  by apply elem_of_nil in H.
Defined.

Lemma validate_refresh_warns_on_invalid_witness :
  ∃ s, RStr "garbage" = RStr s ∧ (s ∉ boolean_like) ∧ lower id s ≠ "wait_for"
       ∧ validate_refresh (λ _ _, true) id (RStr "garbage") =
           ("false", [invalid_refresh_warning (lower id s)]).
Proof.
  apply (proj1 (validate_refresh_warns_on_invalid (λ _ _, true) id (RStr "garbage"))).
  discriminate.
Defined.

(** A text that is not ASCII is lowered by the tables: the warning quotes
    the small letter. *)
Example validate_refresh_non_ascii :
  validate_refresh (λ _ _, true) sample_unicode_lower
    (RStr (String (ascii_of_nat 195) (String (ascii_of_nat 137) EmptyString))) =
  ("false",
   [invalid_refresh_warning
      (String (ascii_of_nat 195) (String (ascii_of_nat 169) EmptyString))]).
Proof. reflexivity. Qed.

Lemma validate_refresh_ignores_environment_witness :
  validate_refresh (λ _ _, true) id (RStr "garbage") =
  validate_refresh (λ _ _, false) id (RStr "garbage").
Proof.
  exact (validate_refresh_ignores_environment (λ _ _, true) (λ _ _, false) id "garbage"
           garbage_not_boolean_like).
Defined.

Lemma validate_refresh_wait_for_any_case_witness :
  validate_refresh (λ _ _, true) id (RStr "Wait_For") = ("wait_for", []).
Proof.
  exact (validate_refresh_wait_for_any_case (λ _ _, true) id "Wait_For" eq_refl).
Defined.

Lemma merge_then_compile_witness :
  (merge_to_operations [("a", JObj [])] = []
   ∧ operations_to_script sample_resolve sample_dumps (merge_to_operations [("a", JObj [])]) =
       Raise UnboundLocalError)
  ∧ ∃ s, operations_to_script sample_resolve sample_dumps
           (merge_to_operations sample_document) = Ok s.
Proof.
  split.
  - apply (proj1 (@merge_then_compile sample_resolve sample_dumps [("a", JObj [])])).
    reflexivity.
  - apply (proj2 (@merge_then_compile sample_resolve sample_dumps sample_document)).
    discriminate.
Defined.

Lemma merge_to_operations_h_fresh_objects_witness :
  ∃ ops h',
    merge_to_operations_h 2 1 sample_heap = (Ok ops, h')
    ∧ NoDup ops
    ∧ length ops = length (merge_to_operations sample_document)
    ∧ Forall (λ l, (length sample_heap ≤ l < length h')%nat) ops.
Proof.
  apply (merge_to_operations_h_fresh_objects 2 1 sample_heap sample_document).
  - cbn. exists [("a", VRef 0%nat)]. split; [reflexivity|]. split_and!; try done.
    exists [("b", VInt 1); ("c", VNone)]. done.
  - cbn. lia.
Defined.
(** ** Guards first *)

Lemma is_guard_not_test (s : string) : is_guard s → ¬ is_test s.
Proof.
  intros [p Hp] (q & v & w & ->). unfold test_statement in Hp.
  destruct Hp as [H|[H|H]]; discriminate H.
Qed.

Lemma add_all_fresh_run (commands : ESCommandSet) (l : list string) :
  (∀ s, s ∈ l → s ∉ commands) → NoDup l → add_all commands l = (commands ++ l)%list.
Proof.
  revert commands. induction l as [|a l IH]; intros commands Hfresh Hnd.
  - by rewrite app_nil_r.
  - apply NoDup_cons in Hnd as [Ha Hnd]. cbn [add_all fold_left].
    rewrite ESCommandSet_add_fresh by (apply Hfresh; left).
    change (add_all (commands ++ [a])%list l = (commands ++ a :: l)%list).
    rewrite IH; [by rewrite <- app_assoc| |done].
    intros s Hs [Hin| ->%list_elem_of_singleton]%elem_of_app; [|done].
    by apply (Hfresh s); [right|].
Qed.

Section GuardsFirst.

Context {V : Type}.
Variable resolve : string → ElasticPath.
Variable json_dumps : V → string.

Lemma statements_split (o : PatchOperation V) :
  ∃ mutations,
    statements resolve json_dumps o =
      ((check_guards (operation_op o) (resolve (operation_path o)) false
        ++ match operation_from_ o with
           | Some f => check_guards (operation_op o) (resolve f) true
           | None => []
           end) ++ mutations)%list
    ∧ (∀ s, s ∈ mutations → is_remove s ∨ is_add s ∨ is_test s)
    ∧ NoDup mutations
    ∧ (1 ≤ length mutations ≤ 2)%nat.
Proof.
  unfold statements.
  eexists. split; [by rewrite <- app_assoc|].
  destruct o as [[] p v|p|[] p f]; cbn [operation_op Op_in existsb Op_eqb orb app length];
    (split_and!; [|try apply NoDup_singleton|lia|lia]).
  - intros s ->%list_elem_of_singleton. right. left. by do 3 eexists.
  - intros s ->%list_elem_of_singleton. right. left. by do 3 eexists.
  - intros s ->%list_elem_of_singleton. right. right. by do 3 eexists.
  - intros s ->%list_elem_of_singleton. left. by eexists.
  - intros s [->|[->|[]%elem_of_nil]%elem_of_cons]%elem_of_cons;
      [left; by eexists|right; left; by do 3 eexists].
  - apply NoDup_cons. split; [|apply NoDup_singleton].
    intros Heq%list_elem_of_singleton.
    apply (is_add_not_remove (add_statement OpMove (resolve p) (variable_name (resolve f))));
      [by do 3 eexists|]. eexists. symmetry. exact Heq.
  - intros s ->%list_elem_of_singleton. right. left. by do 3 eexists.
Qed.

(** X23. Any single operation compiles to its guards followed by its
    mutations: the command sequence is what [check_commands] gives for the
    target path and, when there is one, the source path, all of them
    existence guards, and then one or two statements, each a Remove, an
    Add or a test guard and none an existence guard. Every existence check
    stands before the first change to the document, and the source is the
    concatenation of that sequence. *)
Theorem single_operation_guards_first (o : PatchOperation V) :
  let tgt := resolve (operation_path o) in
  let guards :=
    match operation_from_ o with
    | Some f =>
        check_commands (check_commands [] (operation_op o) tgt false)
          (operation_op o) (resolve f) true
    | None => check_commands [] (operation_op o) tgt false
    end in
  ∃ mutations ps,
    operations_to_script resolve json_dumps [o] =
      Ok {| source := String.concat "" (compiled_commands resolve json_dumps [o]);
            lang := "painless"; params := ps |}
    ∧ compiled_commands resolve json_dumps [o] = (guards ++ mutations)%list
    ∧ Forall is_guard guards
    ∧ Forall (λ s, (is_remove s ∨ is_add s ∨ is_test s) ∧ ¬ is_guard s) mutations
    ∧ (1 ≤ length mutations ≤ 2)%nat
    ∧ NoDup (guards ++ mutations).
Proof.
  intros tgt guards.
  destruct (statements_split o) as (Ms & Hsplit & HMs & Hnd & Hlen).
  set (G := (check_guards (operation_op o) tgt false
             ++ match operation_from_ o with
                | Some f => check_guards (operation_op o) (resolve f) true
                | None => []
                end)%list) in *.
  assert (HG : ∀ s, s ∈ G → is_guard s).
  { intros s [H|H]%elem_of_app; [by eapply check_guards_is_guard|].
    destruct (operation_from_ o); [by eapply check_guards_is_guard|by apply elem_of_nil in H]. }
  assert (Hguards : guards = add_all [] G).
  { subst guards G. destruct (operation_from_ o).
    - apply check_twice_add_all.
    - by rewrite app_nil_r, check_commands_add_all. }
  assert (Hnot : ∀ s, s ∈ Ms → ¬ is_guard s).
  { intros s [Hr|[Ha|Ht]]%HMs Hg.
    - by apply (is_guard_not_remove s).
    - by apply (is_guard_not_add s).
    - by apply (is_guard_not_test s). }
  assert (Hcompiled : compiled_commands resolve json_dumps [o] = (guards ++ Ms)%list).
  { rewrite compiled_commands_run. cbn [flat_map]. rewrite app_nil_r, Hsplit.
    rewrite add_all_app, add_all_fresh_run; [by rewrite Hguards| |done].
    intros s Hs [[]%elem_of_nil|Hin]%elem_of_add_all. by apply (Hnot s Hs), HG. }
  exists Ms. eexists.
  split; [by apply operations_to_script_commands|].
  split; [exact Hcompiled|]. split; [|split; [|split; [exact Hlen|]]].
  - apply Forall_forall. intros s. rewrite Hguards.
    intros [[]%elem_of_nil|Hin]%elem_of_add_all. by apply HG.
  - apply Forall_forall. intros s Hs. split; [by apply HMs|by apply Hnot].
  - rewrite <- Hcompiled. apply compiled_commands_NoDup.
Qed.

End GuardsFirst.
